(** * Viseron NVR front end: shallow embedding of the client-side logic

    The development follows the TypeScript sources:
    - [lib/helpers]            ([getRecordingVideoJSOptions], [removeURLParameter])
    - [context/ColorModeContext] ([toggleColorMode] and the mode chosen on load)
    - [context/AuthContext]    (the axios request interceptor)
    - [lib/api/onboarding]     (the onboarding mutation)
    - [components/events/utils] (the camera-selection store)

    JavaScript strings are embedded as [string]; an object used as a
    dictionary is a [gmap string _]; a value that may be [undefined] or
    [null] is an [option]. *)

From Stdlib Require Import Ascii String.
From stdpp Require Import gmap strings list fin_maps.

(** ** JavaScript string primitives *)

Module JS.

(** Truthiness of a string: only the empty string is falsy. *)
Definition truthy (s : string) : bool :=
  match s with
  | EmptyString => false
  | String _ _ => true
  end.

(** Truthiness of [string | undefined]. *)
Definition truthy_opt (v : option string) : bool :=
  match v with
  | None => false
  | Some s => truthy s
  end.

(** [s.startsWith(p)] *)
Definition startsWith (s p : string) : bool := String.prefix p s.

(** [s.includes(t)]: [t] occurs somewhere in [s]. *)
Fixpoint includes (s t : string) : bool :=
  String.prefix t s ||
  match s with
  | EmptyString => false
  | String _ s' => includes s' t
  end.

(** [url?.includes(t)] on an optional string; [undefined] is falsy. *)
Definition includes_opt (url : option string) (t : string) : bool :=
  match url with
  | None => false
  | Some u => includes u t
  end.

(** [s.split(c)] for a one-character separator.  The result is never
    empty: the empty string splits into one empty piece. *)
Fixpoint split (c : ascii) (s : string) : list string :=
  match s with
  | EmptyString => [EmptyString]
  | String a s' =>
      if Ascii.eqb a c then EmptyString :: split c s'
      else match split c s' with
           | [] => [String a EmptyString]
           | p :: ps => String a p :: ps
           end
  end.

(** [l.join(sep)] *)
Definition join (sep : string) (l : list string) : string :=
  String.concat sep l.

(** Does the character [c] occur in [s]? *)
Fixpoint has_char (c : ascii) (s : string) : bool :=
  match s with
  | EmptyString => false
  | String a s' => Ascii.eqb a c || has_char c s'
  end.

(** The text after the first occurrence of [c], when there is one. *)
Fixpoint after_first (c : ascii) (s : string) : option string :=
  match s with
  | EmptyString => None
  | String a s' => if Ascii.eqb a c then Some s' else after_first c s'
  end.

(** The text before the first occurrence of [c] (all of [s] without one). *)
Fixpoint before_first (c : ascii) (s : string) : string :=
  match s with
  | EmptyString => EmptyString
  | String a s' => if Ascii.eqb a c then EmptyString else String a (before_first c s')
  end.

End JS.

(** ** lib/helpers *)

Module Helpers.
Import JS.

(** The fields of [types.Recording] that the helper reads. *)
Record Recording := {
  hls_url : string;
  thumbnail_path : string;
}.

Record Source := {
  src : string;
  type : string;
}.

(** The video.js options; the playback-rate literals 0.5, 1, 2, 5, 10 are
    kept as their source text. *)
Record VideoJSOptions := {
  autoplay : bool;
  playsinline : bool;
  controls : bool;
  loop : bool;
  poster : string;
  preload : string;
  responsive : bool;
  fluid : bool;
  playbackRates : list string;
  liveui : bool;
  liveTracker_trackingThreshold : nat;
  html5_vhs_experimentalLLHLS : bool;
  sources : list Source;
}.

Definition getRecordingVideoJSOptions
    (recording : Recording) (auth_token : option string) : VideoJSOptions :=
  {| autoplay := false;
     playsinline := true;
     controls := true;
     loop := true;
     poster := thumbnail_path recording;
     preload := "none";
     responsive := true;
     fluid := true;
     playbackRates := ["0.5"; "1"; "2"; "5"; "10"];
     liveui := true;
     liveTracker_trackingThreshold := 0;
     html5_vhs_experimentalLLHLS := true;
     sources :=
       [ {| src := hls_url recording +:+
                   match auth_token with
                   | Some t => if truthy t then "?token=" +:+ t else ""
                   | None => ""
                   end;
            type := "application/x-mpegURL" |} ] |}.

(** [const [base, queryString] = url.split("?")] keeps the first two
    pieces and drops the others. *)
Definition removeURLParameter (url parameter : string) : string :=
  match split "?" url with
  | base :: queryString :: _ =>
      if negb (truthy queryString) then url
      else
        let params :=
          List.filter (fun param => negb (startsWith param (parameter +:+ "=")))
                      (split "&" queryString) in
        match params with
        | [] => base
        | _ :: _ => base +:+ "?" +:+ join "&" params
        end
  | _ => url
  end.

(** *** What the url itself says about its query

    The query parameters of a url, read off the url and not off the code:
    the pieces between ["&"] of the text after the first ["?"]; a url
    without ["?"] has none. *)
Definition query_params (url : string) : list string :=
  match after_first "?" url with
  | None => []
  | Some query => split "&" query
  end.

(** The parameter text [param] starts with [parameter] followed by ["="]. *)
Definition names (parameter param : string) : bool :=
  String.prefix (parameter +:+ "=") param.

(** The query parameters that a removal of [parameter] has to keep. *)
Definition others (parameter : string) (params : list string) : list string :=
  List.filter (λ param, negb (names parameter param)) params.

Definition removes_parameter (url parameter : string) : Prop :=
  Forall (λ param, names parameter param = false)
         (query_params (removeURLParameter url parameter)).

Definition preserves_others (url parameter : string) : Prop :=
  query_params (removeURLParameter url parameter)
  = others parameter (query_params url).

Definition unchanged_without_query (url parameter : string) : Prop :=
  has_char "?" url = false → removeURLParameter url parameter = url.

Definition drops_empty_query (url parameter : string) : Prop :=
  others parameter (query_params url) = [] →
  has_char "?" (removeURLParameter url parameter) = false.

Definition idempotent (url parameter : string) : Prop :=
  removeURLParameter (removeURLParameter url parameter) parameter
  = removeURLParameter url parameter.

Definition removeURLParameter_post (url parameter : string) : Prop :=
  removes_parameter url parameter ∧
  preserves_others url parameter ∧
  unchanged_without_query url parameter ∧
  drops_empty_query url parameter ∧
  idempotent url parameter.

(** The url has at most one ["?"]. *)
Definition single_query (url : string) : Prop :=
  match after_first "?" url with
  | None => True
  | Some query => has_char "?" query = false
  end.

End Helpers.

(** ** Effects: thrown errors and state threading *)

Module Eff.

(** [new Error(message)] *)
Inductive Error := mkError (message : string).

Inductive Outcome (A : Type) :=
  | Returned (a : A)
  | Thrown (e : Error).
Arguments Returned {A} a.
Arguments Thrown {A} e.

(** A computation over a world [W] that returns or throws. *)
Definition M (W A : Type) : Type := W → Outcome A * W.

Definition throw {W A} (e : Error) : M W A := λ w, (Thrown e, w).

(** Sequencing uses stdpp's monad notation [x ← m; k]. *)
#[global] Instance M_ret W : MRet (M W) := λ A a w, (Returned a, w).
#[global] Instance M_bind W : MBind (M W) := λ A B k m w,
  match m w with
  | (Returned a, w') => k a w'
  | (Thrown e, w') => (Thrown e, w')
  end.

End Eff.

(** ** context/ColorModeContext *)

Module ColorMode.

Inductive Mode := light | dark.

(** The string a mode is stored as. *)
Definition mode_text (m : Mode) : string :=
  match m with
  | light => "light"
  | dark => "dark"
  end.

(** The React state [mode] together with the browser's [localStorage]. *)
Record State := {
  mode : Mode;
  localStorage : gmap string string;
}.

(** [useState<"light" | "dark">("light")] *)
Definition initial (storage : gmap string string) : State :=
  {| mode := light; localStorage := storage |}.

(** [useMediaQuery("(prefers-color-scheme: dark)") ? "dark" : "light"] *)
Definition preferredMode (prefers_dark : bool) : Mode :=
  if prefers_dark then dark else light.

Definition toggleColorMode (st : State) : State :=
  let prevMode := mode st in
  let nextMode := match prevMode with light => dark | dark => light end in
  {| mode := nextMode;
     localStorage := <["chosenMode" := mode_text nextMode]> (localStorage st) |}.

(** The effect run on load (and when the OS preference changes). *)
Definition chosenModeEffect (prefers_dark : bool) (st : State) : State :=
  let chosenMode := localStorage st !! "chosenMode" in
  if decide (chosenMode = Some "dark") then
    {| mode := dark; localStorage := localStorage st |}
  else if decide (chosenMode = Some "light") then
    {| mode := light; localStorage := localStorage st |}
  else
    {| mode := preferredMode prefers_dark; localStorage := localStorage st |}.

End ColorMode.

(** ** context/AuthContext: the request interceptor *)

Module AuthContext.
Import JS Eff.

(** [types.AuthEnabledResponse] *)
Record AuthEnabledResponse := {
  enabled : bool;
  onboarding_complete : bool;
}.

Section Interceptor.

(** The fields of the axios request config that the interceptor never
    reads, and the client's token store that [getToken] works on. *)
Variable Other : Type.
Variable TokenStore : Type.

(** The request config.  Header names are taken in the spelling the
    interceptor uses. *)
Record Config := {
  url : option string;
  headers : gmap string string;
  other : Other;
}.

(** What the interceptor can act on: the toasts shown so far and the
    token store. *)
Record World := {
  toasts : list string;
  tokens : TokenStore;
}.

(** [toast.error(text)] *)
Definition toast_error (text : string) : M World () :=
  λ w, (Returned (), {| toasts := toasts w ++ [text]; tokens := tokens w |}).

(** [await getToken(config)].  [getToken] of [lib/tokens] is taken as
    given: it resolves to a value ([None] for [null]) or rejects, and it
    may change the token store. *)
Definition await_getToken
    (getToken : Config → TokenStore → Outcome (option string) * TokenStore)
    (config : Config) : M World (option string) :=
  λ w, let '(result, store) := getToken config (tokens w) in
       (result, {| toasts := toasts w; tokens := store |}).

(** [(config.headers as AxiosHeaders).set(name, value)]: the headers keep
    under [name] what axios makes of the value.  [normalizeValue] is
    axios's own and is taken as given. *)
Definition AxiosHeaders_set (normalizeValue : string → string)
    (name value : string) (config : Config) : Config :=
  {| url := url config;
     headers := <[name := normalizeValue value]> (headers config);
     other := other config |}.

(** The interceptor installed for a given [auth]; [cookies] is what
    [Cookies.get()] returns. *)
Definition request_interceptor
    (normalizeValue : string → string)
    (getToken : Config → TokenStore → Outcome (option string) * TokenStore)
    (auth : option AuthEnabledResponse) (cookies : gmap string string)
    (config : Config) : M World Config :=
  match auth with
  | None =>
      if includes_opt (url config) "/auth/enabled" then mret config
      else throw (mkError "Request blocked, auth not loaded yet.")
  | Some auth =>
      if negb (enabled auth) then mret config
      else if includes_opt (url config) "/auth/enabled"
              || includes_opt (url config) "/auth/login"
              || includes_opt (url config) "/onboarding" then mret config
      else if truthy_opt (cookies !! "user")
              && includes_opt (url config) "/auth/token" then mret config
      else if negb (truthy_opt (cookies !! "user")) then
        toast_error "Session expired, please log in again" ;;
        throw (mkError "Invalid session.")
      else
        token ← await_getToken getToken config;
        match token with
        | Some t =>
            if truthy t
            then mret (AxiosHeaders_set normalizeValue "Authorization"
                         ("Bearer " +:+ t) config)
            else mret config
        | None => mret config
        end
  end.

(** *** The interceptor when [getToken] resolves

    A [getToken] that resolves to the value it is given as, and header
    values that axios keeps as they are. *)
Definition resolves (getToken : Config → TokenStore → option string * TokenStore)
    : Config → TokenStore → Outcome (option string) * TokenStore :=
  λ config store,
    let '(token, store') := getToken config store in (Returned token, store').

Definition set_header (name value : string) (config : Config) : Config :=
  AxiosHeaders_set (λ value, value) name value config.

Definition interceptor
    (getToken : Config → TokenStore → option string * TokenStore)
    (auth : option AuthEnabledResponse) (cookies : gmap string string)
    (config : Config) : M World Config :=
  request_interceptor (λ value, value) (resolves getToken) auth cookies config.

End Interceptor.

Arguments url {Other} _.
Arguments headers {Other} _.
Arguments other {Other} _.
Arguments toasts {TokenStore} _.
Arguments tokens {TokenStore} _.
Arguments toast_error {TokenStore} text _.
Arguments await_getToken {Other TokenStore} getToken config _.
Arguments AxiosHeaders_set {Other} normalizeValue name value config.
Arguments request_interceptor {Other TokenStore}
  normalizeValue getToken auth cookies config _.
Arguments resolves {Other TokenStore} getToken _ _.
Arguments set_header {Other} name value config.
Arguments interceptor {Other TokenStore} getToken auth cookies config _.

(** The request passes none of the three paths that need no session. *)
Definition needs_session {Other} (config : Config Other) : Prop :=
  includes_opt (url config) "/auth/enabled" = false ∧
  includes_opt (url config) "/auth/login" = false ∧
  includes_opt (url config) "/onboarding" = false.

(** *** Concrete requests, for the examples below *)

Definition enabled_auth : AuthEnabledResponse :=
  {| enabled := true; onboarding_complete := true |}.

Definition cameras_request : Config () :=
  {| url := Some "/api/v1/cameras"; headers := ∅; other := () |}.

Definition fresh_world : World () := {| toasts := []; tokens := () |}.

(** A [getToken] that always resolves to the given value. *)
Definition token_is (token : option string)
    : Config () → () → option string * () :=
  λ _ store, (token, store).

(** A [getToken] that always rejects with the given error. *)
Definition token_fails (e : Error)
    : Config () → () → Outcome (option string) * () :=
  λ _ store, (Thrown e, store).

End AuthContext.

(** ** lib/api/onboarding *)

Module Onboarding.
Import JS.

Record OnboardingVariables := {
  name : string;
  username : string;
  password : string;
}.

(** The JSON body of the request. *)
Record Body := {
  body_client_id : string;
  body_name : string;
  body_username : string;
  body_password : string;
}.

(** [types.APIErrorResponse]: an axios error.  [response] is missing when
    the server never answered; [data_error] is [response.data.error]. *)
Record ErrorResponse := {
  data_error : option string;
}.

Record APIErrorResponse := {
  message : string;
  response : option ErrorResponse;
}.

Inductive Toast :=
  | toast_success (text : string)
  | toast_error (text : string).

Section Mutation.

(** [types.OnboardingResponse] *)
Variable OnboardingResponse : Type.

(** [clientId()] of [lib/api/client]. *)
Variable clientId : string.

(** How the server answers a POST: the response data, or the error axios
    rejects with. *)
Variable server : string → Body → OnboardingResponse + APIErrorResponse.

(** The requests sent, the calls of [storeTokens] and the toasts shown. *)
Record World := {
  posts : list (string * Body);
  stored : list OnboardingResponse;
  toasts : list Toast;
}.

(** [viseronAPI.post(path, body)], then [response.data]. *)
Definition viseronAPI_post (path : string) (body : Body)
    : World → (OnboardingResponse + APIErrorResponse) * World :=
  λ w, (server path body,
        {| posts := posts w ++ [(path, body)];
           stored := stored w; toasts := toasts w |}).

Definition storeTokens (data : OnboardingResponse) (w : World) : World :=
  {| posts := posts w; stored := stored w ++ [data]; toasts := toasts w |}.

Definition toast (t : Toast) (w : World) : World :=
  {| posts := posts w; stored := stored w; toasts := toasts w ++ [t] |}.

Definition onboarding (v : OnboardingVariables)
    : World → (OnboardingResponse + APIErrorResponse) * World :=
  viseronAPI_post "/onboarding"
    {| body_client_id := clientId;
       body_name := name v;
       body_username := username v;
       body_password := password v |}.

Definition onSuccess (data : OnboardingResponse) (w : World) : World :=
  toast (toast_success "User created successfully") (storeTokens data w).

(** [error.response && error.response.data.error] *)
Definition server_error (error : APIErrorResponse) : option string :=
  match response error with
  | Some r => data_error r
  | None => None
  end.

Definition onError_text (error : APIErrorResponse) : string :=
  match server_error error with
  | Some e =>
      if truthy e then "Error creating user: " +:+ e
      else "An error occurred: " +:+ message error
  | None => "An error occurred: " +:+ message error
  end.

Definition onError (error : APIErrorResponse) (w : World) : World :=
  toast (toast_error (onError_text error)) w.

(** One run of the mutation returned by [useOnboarding]: the mutation
    function, then the callback for its outcome. *)
Definition mutate (v : OnboardingVariables) (w : World) : World :=
  match onboarding v w with
  | (inl data, w') => onSuccess data w'
  | (inr error, w') => onError error w'
  end.

End Mutation.

Arguments posts {OnboardingResponse} _.
Arguments stored {OnboardingResponse} _.
Arguments toasts {OnboardingResponse} _.
Arguments viseronAPI_post {OnboardingResponse} server path body _.
Arguments storeTokens {OnboardingResponse} data w.
Arguments toast {OnboardingResponse} t w.
Arguments onboarding {OnboardingResponse} clientId server v _.
Arguments onSuccess {OnboardingResponse} data w.
Arguments onError {OnboardingResponse} error w.
Arguments mutate {OnboardingResponse} clientId server v w.

(** *** Concrete data, for the examples below *)

Definition ann : OnboardingVariables :=
  {| name := "Ann"; username := "ann"; password := "secret" |}.

Definition ann_body : Body :=
  {| body_client_id := "client-1"; body_name := "Ann";
     body_username := "ann"; body_password := "secret" |}.

Definition no_requests : World string :=
  {| posts := []; stored := []; toasts := [] |}.

Definition username_taken : APIErrorResponse :=
  {| message := "Request failed with status code 400";
     response := Some {| data_error := Some "Username taken" |} |}.

Definition network_error : APIErrorResponse :=
  {| message := "Network Error"; response := None |}.

End Onboarding.

(** ** components/events/utils: the camera-selection store *)

Module CameraStore.

Record CameraState := {
  cameras : gmap string bool;
  selectedCameras : list string;
  selectionOrder : list string;
}.

Definition initial : CameraState :=
  {| cameras := ∅; selectedCameras := []; selectionOrder := [] |}.

(** The map holds the object's own keys.  [is_on] says that [id] is an
    own key with value [true]; it is what [selectedCameras] goes by, and
    not what the code reads with [cameras[id]] (see [reads_true]). *)
Definition is_on (cams : gmap string bool) (id : string) : bool :=
  default false (cams !! id).

(** The names that every object inherits from [Object.prototype].  Read
    through an object without such an own key they give a function, or
    for ["__proto__"] the prototype itself: a truthy value. *)
Definition prototype_names : list string :=
  ["constructor"; "__defineGetter__"; "__defineSetter__"; "hasOwnProperty";
   "__lookupGetter__"; "__lookupSetter__"; "isPrototypeOf";
   "propertyIsEnumerable"; "toString"; "valueOf"; "__proto__";
   "toLocaleString"].

(** [cams[id]] read as a condition: the own value when [id] is an own
    key, and else what [Object.prototype] has under that name. *)
Definition reads_true (cams : gmap string bool) (id : string) : bool :=
  match cams !! id with
  | Some value => value
  | None => bool_decide (id ∈ prototype_names)
  end.

(** [cams[id] = value]: an own key gets the value and a new key is added
    with it, except that an assignment to a missing ["__proto__"] goes to
    the setter of [Object.prototype], which ignores a boolean. *)
Definition assign (id : string) (value : bool) (cams : gmap string bool)
    : gmap string bool :=
  if decide (id = "__proto__" ∧ cams !! id = None) then cams
  else <[id := value]> cams.

(** [Object.entries(cams).filter(([_key, value]) => value).map(([key]) => key)].
    [map_to_list] lists every own entry once, in an order of its own: the
    order of [Object.entries] is not modelled, and what is said of
    [selectedCameras] is said of it as a set. *)
Definition enabled_keys (cams : gmap string bool) : list string :=
  (filter (λ entry : string * bool, entry.2 = true) (map_to_list cams)).*1.

Definition toggleCamera (cameraIdentifier : string) (state : CameraState)
    : CameraState :=
  let newCameras :=
    assign cameraIdentifier (negb (reads_true (cameras state) cameraIdentifier))
      (cameras state) in
  let newSelectionOrder :=
    if reads_true newCameras cameraIdentifier
    then selectionOrder state ++ [cameraIdentifier]
    else filter (λ id, id ≠ cameraIdentifier) (selectionOrder state) in
  {| cameras := newCameras;
     selectedCameras := enabled_keys newCameras;
     selectionOrder := newSelectionOrder |}.

(** [Object.keys(newCameras).forEach(...)] rewrites the value of every key
    that is already there and adds none. *)
Definition selectSingleCamera (cameraIdentifier : string) (state : CameraState)
    : CameraState :=
  {| cameras := map_imap (λ key _, Some (String.eqb key cameraIdentifier))
                         (cameras state);
     selectedCameras := [cameraIdentifier];
     selectionOrder := [cameraIdentifier] |}.

(** The store's two actions and runs of them. *)
Inductive Action :=
  | ToggleCamera (cameraIdentifier : string)
  | SelectSingleCamera (cameraIdentifier : string).

Definition step (state : CameraState) (a : Action) : CameraState :=
  match a with
  | ToggleCamera id => toggleCamera id state
  | SelectSingleCamera id => selectSingleCamera id state
  end.

Definition run (actions : list Action) (state : CameraState) : CameraState :=
  foldl step state actions.

(** [selectedCameras] lists exactly the keys that are [true]. *)
Definition selected_matches (state : CameraState) : Prop :=
  ∀ id, id ∈ selectedCameras state ↔ cameras state !! id = Some true.

(** [selectionOrder] lists exactly the keys that are [true], each once. *)
Definition order_matches (state : CameraState) : Prop :=
  NoDup (selectionOrder state) ∧
  ∀ id, id ∈ selectionOrder state ↔ cameras state !! id = Some true.

Definition consistent (state : CameraState) : Prop :=
  selected_matches state ∧ order_matches state.

(** [id] is an own key of the map, or else is not a name that objects
    inherit: reading and writing [cams[id]] then concern the map alone. *)
Definition plain (cams : gmap string bool) (id : string) : Prop :=
  is_Some (cams !! id) ∨ id ∉ prototype_names.

(** [selectSingleCamera] is only ever applied to a key of the map, and
    [toggleCamera] never to a ["__proto__"] that the map does not have. *)
Fixpoint known_selects (actions : list Action) (state : CameraState) : Prop :=
  match actions with
  | [] => True
  | a :: rest =>
      match a with
      | ToggleCamera id => id ≠ "__proto__" ∨ is_Some (cameras state !! id)
      | SelectSingleCamera id => is_Some (cameras state !! id)
      end ∧ known_selects rest (step state a)
  end.

(** Two toggles of [id] give back the map and the selected set, and at
    most move [id] to the end of the selection order. *)
Definition double_toggle_restores (state : CameraState) (id : string) : Prop :=
  let state2 := toggleCamera id (toggleCamera id state) in
  cameras state2 = cameras state ∧
  (∀ x, x ∈ selectedCameras state2 ↔ x ∈ selectedCameras state) ∧
  (selectionOrder state2 = selectionOrder state ∨
   selectionOrder state2
   = filter (λ x, x ≠ id) (selectionOrder state) ++ [id]).

End CameraStore.

(** ** lib/helpers: the browser url *)

Module Navigation.
Import JS Helpers.

(** [window.location.href] and the urls that [window.history.pushState]
    has been given, oldest first. *)
Record Window := {
  href : string;
  pushed : list string;
}.

(** [window.history.pushState({ path: url }, "", url)].  The browser
    keeps a url in its serialised form, so that [location.href] is what
    the browser makes of [url]; [serialise] is the browser's and is taken
    as given. *)
Definition pushState (serialise : string → string) (url : string) (w : Window)
    : Window :=
  {| href := serialise url; pushed := pushed w ++ [url] |}.

(** [value] is the text that the template literal makes of
    [string | number]. *)
Definition insertURLParameter (serialise : string → string)
    (key value : string) (w : Window) : Window :=
  let currentURL := removeURLParameter (href w) key in
  let queryStart := if has_char "?" currentURL then "&" else "?" in
  let newurl := (currentURL +:+ queryStart +:+ key) +:+ "=" +:+ value in
  pushState serialise newurl w.

(** The text of a query parameter. *)
Definition param (key value : string) : string := key +:+ "=" +:+ value.

(** The url that [insertURLParameter(key, value)] hands to [pushState]
    when [location.href] is [href]. *)
Definition inserted_url (key value href : string) : string :=
  let currentURL := removeURLParameter href key in
  currentURL +:+ (if has_char "?" currentURL then "&" else "?")
             +:+ param key value.

(** A browser that keeps a url as it is given, as browsers do with a url
    that is in serialised form already. *)
Definition kept (url : string) : string := url.

End Navigation.

(** ** lib/helpers: the video element *)

Module Video.
Import JS Helpers.

(** [camera.mainstream], as far as the element reads it. *)
Record Camera := {
  mainstream_width : Z;
  mainstream_height : Z;
}.

(** What is rendered: the placeholder, with the two numbers whose quotient
    is its aspect ratio, or the player with its options. *)
Inductive VideoElement :=
  | VideoPlayerPlaceholder (width height : Z)
  | VideoPlayer (options : VideoJSOptions).

(** [getAuthHeader()] of [lib/tokens] is taken as the value it returns
    ([None] for [null]).  A [types.Recording] always has keys, so
    [objHasValues(recording)] fails for [null] and [undefined] only. *)
Definition getVideoElement (getAuthHeader : option string)
    (camera : Camera) (recording : option Recording) (authEnabled : bool)
    : VideoElement :=
  match recording with
  | None =>
      VideoPlayerPlaceholder (mainstream_width camera) (mainstream_height camera)
  | Some recording =>
      let authHeader := if authEnabled then getAuthHeader else None in
      VideoPlayer
        (getRecordingVideoJSOptions recording
           (if truthy_opt authHeader then authHeader else None))
  end.

End Video.

(** ** lib/helpers: objects *)

Module Objects.
Import JS.

Section Values.

(** Numbers and the values stored in objects and arrays are left open. *)
Variable Num V : Type.

(** A JavaScript value, as far as [typeof] and [Object.keys] tell values
    apart.  An object or a function is given by its own enumerable string
    keys; [VObject] stands for every value whose [typeof] is ["object"]
    other than [null] and a plain array (a sparse array or an array with
    further keys is a [VObject]). *)
Inductive Value :=
  | VUndefined
  | VNull
  | VBoolean (b : bool)
  | VNumber (n : Num)
  | VBigInt (n : Z)
  | VSymbol (description : option string)
  | VString (s : string)
  | VArray (items : list V)
  | VObject (fields : gmap string V)
  | VFunction (fields : gmap string V).

(** [typeof v === "object"] *)
Definition typeof_object (v : Value) : bool :=
  match v with
  | VNull | VArray _ | VObject _ => true
  | _ => false
  end.

(** [Object.keys(v).length], for a [v] that is neither [null] nor
    [undefined]: a string and an array have one key for each index, an
    object and a function have their own enumerable keys, and the other
    primitives have none. *)
Definition keys_length (v : Value) : nat :=
  match v with
  | VUndefined | VNull | VBoolean _ | VNumber _ | VBigInt _ | VSymbol _ => 0
  | VString s => String.length s
  | VArray items => length items
  | VObject fields => size fields
  | VFunction fields => size fields
  end.

Definition objIsEmpty (obj : Value) : bool :=
  match obj with
  | VNull | VUndefined => true
  | _ => Nat.eqb (keys_length obj) 0
  end.

Definition objHasValues (obj : Value) : bool :=
  typeof_object obj
  && match obj with VNull => false | _ => true end
  && Nat.ltb 0 (keys_length obj).

(** A value with keys whose [typeof] is not ["object"]: a non-empty
    string, or a function with an own enumerable key. *)
Definition keyed_non_object (v : Value) : bool :=
  match v with
  | VString s => JS.truthy s
  | VFunction fields => Nat.ltb 0 (size fields)
  | _ => false
  end.

End Values.

Arguments VUndefined {Num V}.
Arguments VNull {Num V}.
Arguments VBoolean {Num V} b.
Arguments VNumber {Num V} n.
Arguments VBigInt {Num V} n.
Arguments VSymbol {Num V} description.
Arguments VString {Num V} s.
Arguments VArray {Num V} items.
Arguments VObject {Num V} fields.
Arguments VFunction {Num V} fields.
Arguments typeof_object {Num V} v.
Arguments keys_length {Num V} v.
Arguments objIsEmpty {Num V} obj.
Arguments objHasValues {Num V} obj.
Arguments keyed_non_object {Num V} v.

End Objects.

(** ** lib/helpers: time *)

Module Time.

Local Open Scope Z_scope.

(** The largest time value of a [Date], in milliseconds either side of
    the epoch. *)
Definition max_time : Z := 8640000000000000.

(** A [Date] is its time value in milliseconds, or the invalid date
    ([None], time value [NaN]).  All the numbers below are integers of at
    most [max_time] in size, which JavaScript numbers hold exactly, and
    the quotient by 1000 is far enough from the next integer for
    [Math.floor] to give the integer quotient. *)
Definition Date : Type := option Z.

(** [new Date(ms)] for an integer [ms]. *)
Definition new_Date (ms : Z) : Date :=
  if decide (Z.abs ms ≤ max_time) then Some ms else None.

(** [date.getTime()], [None] for [NaN]. *)
Definition getTime (date : Date) : option Z := date.

(** [Math.floor(date.getTime() / 1000)] *)
Definition dateToTimestamp (date : Date) : option Z :=
  (λ ms, ms `div` 1000) <$> getTime date.

(** [Math.floor(date.getTime())] *)
Definition dateToTimestampMillis (date : Date) : option Z := getTime date.

(** [new Date(timestamp * 1000)] for an integer timestamp. *)
Definition timestampToDate (timestamp : Z) : Date :=
  new_Date (timestamp * 1000).

(** *** [throttle]

    The closure keeps [lastTime]; [ran] lists the clock readings at which
    [func] was run, oldest first. *)
Record Throttle := {
  lastTime : Z;
  ran : list Z;
}.

(** [throttle(func, timeFrame)]: [let lastTime = 0]. *)
Definition throttle : Throttle := {| lastTime := 0; ran := [] |}.

(** One call of the throttled function when the clock reads [now]. *)
Definition throttled (timeFrame now : Z) (t : Throttle) : Throttle :=
  if decide (timeFrame ≤ now - lastTime t)
  then {| lastTime := now; ran := ran t ++ [now] |}
  else t.

(** The calls made at the clock readings [clock], in turn. *)
Definition throttled_calls (timeFrame : Z) (clock : list Z) (t : Throttle)
    : Throttle :=
  foldl (λ t now, throttled timeFrame now t) t clock.

(** Neighbours in the list are at least [gap] apart. *)
Fixpoint spaced (gap : Z) (times : list Z) : Prop :=
  match times with
  | [] => True
  | t1 :: rest =>
      match rest with
      | [] => True
      | t2 :: _ => gap ≤ t2 - t1
      end ∧ spaced gap rest
  end.

(** The invariant of the throttle: [func] ran at well-spaced times, and
    [lastTime] is the last of them (or still [0]). *)
Definition throttle_inv (timeFrame : Z) (t : Throttle) : Prop :=
  spaced timeFrame (ran t) ∧
  (ran t = [] ∨ last (ran t) = Some (lastTime t)).

End Time.

(** ** lib/helpers: title case *)

Module Text.

(** [toUpperCase] and [toLowerCase] on one character of the ASCII range;
    characters outside it are left alone and are excluded where it
    matters. *)
Definition toUpperCase_char (c : ascii) : ascii :=
  let n := nat_of_ascii c in
  if Nat.leb 97 n && Nat.leb n 122 then ascii_of_nat (n - 32) else c.

Definition toLowerCase_char (c : ascii) : ascii :=
  let n := nat_of_ascii c in
  if Nat.leb 65 n && Nat.leb n 90 then ascii_of_nat (n + 32) else c.

Fixpoint toLowerCase (s : string) : string :=
  match s with
  | EmptyString => EmptyString
  | String c s' => String (toLowerCase_char c) (toLowerCase s')
  end.

Fixpoint toUpperCase (s : string) : string :=
  match s with
  | EmptyString => EmptyString
  | String c s' => String (toUpperCase_char c) (toUpperCase s')
  end.

(** [str.charAt(0)]: the first character as a string, [""] without one. *)
Definition charAt0 (str : string) : string :=
  match str with
  | EmptyString => EmptyString
  | String c _ => String c EmptyString
  end.

(** [str.slice(1)] *)
Definition slice1 (str : string) : string :=
  match str with
  | EmptyString => EmptyString
  | String _ rest => rest
  end.

Definition toTitleCase (str : string) : string :=
  toUpperCase (charAt0 str) +:+ toLowerCase (slice1 str).

(** Every character is in the ASCII range. *)
Fixpoint is_ascii (s : string) : bool :=
  match s with
  | EmptyString => true
  | String c s' => Nat.ltb (nat_of_ascii c) 128 && is_ascii s'
  end.

Definition is_lower (c : ascii) : bool :=
  Nat.leb 97 (nat_of_ascii c) && Nat.leb (nat_of_ascii c) 122.

Definition is_upper (c : ascii) : bool :=
  Nat.leb 65 (nat_of_ascii c) && Nat.leb (nat_of_ascii c) 90.

(** No character of [s] satisfies [p]. *)
Fixpoint none_of (p : ascii → bool) (s : string) : bool :=
  match s with
  | EmptyString => true
  | String c s' => negb (p c) && none_of p s'
  end.

End Text.

(** ** components/events/utils: the cameras to show *)

Module FilteredCameras.

Section Filtered.

(** [types.Camera | types.FailedCamera] *)
Variable V : Type.

(** [{ ...camerasQuery.data, ...failedCamerasQuery.data }]: a failed
    camera takes the place of a camera with the same key. *)
Definition cameraData (cameras failed : option (gmap string V))
    : gmap string V :=
  match cameras, failed with
  | None, None => ∅
  | _, _ => default ∅ failed ∪ default ∅ cameras
  end.

(** [obj[key] = camera] on the object being built, which starts as [{}]:
    a key is added with the camera, except that the assignment to
    ["__proto__"] goes to the setter of [Object.prototype] and adds no
    key.  The maps hold the own keys. *)
Definition put (key : string) (camera : V) (obj : gmap string V)
    : gmap string V :=
  if decide (key = "__proto__") then obj else <[key := camera]> obj.

(** [Object.keys(data).filter(...).reduce((obj, key) => { obj[key] =
    data[key]; return obj; }, {})] *)
Definition pick (data : gmap string V) (selectedCameras : list string)
    : gmap string V :=
  foldl (λ obj key,
           match data !! key with
           | Some camera => put key camera obj
           | None => obj
           end)
        ∅
        (filter (λ key, key ∈ selectedCameras) (map_to_list data).*1).

Definition useFilteredCameras (cameras failed : option (gmap string V))
    (selectedCameras : list string) : gmap string V :=
  pick (cameraData cameras failed) selectedCameras.

End Filtered.

Arguments cameraData {V} cameras failed.
Arguments put {V} key camera obj.
Arguments pick {V} data selectedCameras.
Arguments useFilteredCameras {V} cameras failed selectedCameras.

End FilteredCameras.

(** * Properties *)

(** ** Facts about the string primitives *)

Module JSFacts.
Import JS.

(** [+:+] does not unfold under [simpl]; these are its two equations. *)
Lemma append_nil_l (t : string) : "" +:+ t = t.
Proof. reflexivity. Qed.

Lemma append_cons (a : ascii) (s t : string) :
  String a s +:+ t = String a (s +:+ t).
Proof. reflexivity. Qed.

Lemma append_nil_r (s : string) : s +:+ "" = s.
Proof.
  induction s as [|a s IH]; [done|]. by rewrite append_cons, IH.
Qed.

Lemma append_assoc (s t u : string) : (s +:+ t) +:+ u = s +:+ t +:+ u.
Proof.
  induction s as [|a s IH]; [done|]. by rewrite !append_cons, IH.
Qed.

Lemma prefix_refl (s : string) : String.prefix s s = true.
Proof.
  induction s as [|a s IH]; simpl; [done|].
  destruct (Ascii.ascii_dec a a); [exact IH | congruence].
Qed.

Lemma prefix_nil (s : string) : String.prefix "" s = true.
Proof. by destruct s. Qed.

Lemma prefix_app (s t : string) : String.prefix s (s +:+ t) = true.
Proof.
  induction s as [|a s IH]; simpl; [apply prefix_nil|].
  destruct (Ascii.ascii_dec a a); [exact IH | congruence].
Qed.

Lemma includes_nil (s : string) : includes s "" = true.
Proof. destruct s; simpl; [done|]. done. Qed.

Lemma includes_here (s t : string) : String.prefix t s = true → includes s t = true.
Proof. intros H. destruct s; simpl in *; rewrite H; done. Qed.

Lemma includes_cons (a : ascii) (s t : string) :
  includes s t = true → includes (String a s) t = true.
Proof. intros H. cbn [includes]. rewrite H. apply orb_true_r. Qed.

(** A string includes each of its suffixes, and so whatever is appended
    to a prefix. *)
Lemma includes_app_r (s t : string) : includes (s +:+ t) t = true.
Proof.
  induction s as [|a s IH]; simpl String.append.
  - apply includes_here, prefix_refl.
  - by apply includes_cons.
Qed.

(** [startsWith] and [includes] say what they should. *)
Lemma prefix_spec (t s : string) :
  String.prefix t s = true ↔ ∃ b, s = t +:+ b.
Proof.
  revert s. induction t as [|a t IH]; intros s.
  - rewrite prefix_nil. split; [by exists s | done].
  - destruct s as [|c s]; simpl.
    + split; [done | by intros [b ?]].
    + destruct (Ascii.ascii_dec a c) as [->|Hne].
      * rewrite IH. split; intros [b Hb]; exists b.
        -- by rewrite append_cons, Hb.
        -- rewrite append_cons in Hb. congruence.
      * split; [done|]. intros [b Hb]. rewrite append_cons in Hb. congruence.
Qed.

Lemma includes_spec (s t : string) :
  includes s t = true ↔ ∃ a b, s = a +:+ t +:+ b.
Proof.
  induction s as [|c s IH].
  - cbn [includes]. rewrite orb_false_r, prefix_spec. split.
    + intros [b Hb]. by exists "", b.
    + intros ([|c a] & b & Hab); [by exists b | by rewrite append_cons in Hab].
  - cbn [includes]. rewrite orb_true_iff, prefix_spec, IH. split.
    + intros [[b Hb] | (a & b & Hab)].
      * by exists "", b.
      * exists (String c a), b. by rewrite append_cons, Hab.
    + intros ([|c' a] & b & Hab).
      * left. by exists b.
      * right. rewrite append_cons in Hab. exists a, b. congruence.
Qed.

Lemma truthy_false (s : string) : truthy s = false ↔ s = "".
Proof. destruct s; simpl; split; congruence. Qed.

End JSFacts.

(** ** Facts about [split] and [join] *)

Module SplitFacts.
Import JS JSFacts.

Lemma has_char_cons c a s : has_char c (String a s) = Ascii.eqb a c || has_char c s.
Proof. reflexivity. Qed.

Lemma has_char_app c s t : has_char c (s +:+ t) = has_char c s || has_char c t.
Proof.
  induction s as [|a s IH]; [done|].
  by rewrite append_cons, !has_char_cons, IH, orb_assoc.
Qed.

Section Split.
Variable c : ascii.

Lemma after_first_None s : after_first c s = None ↔ has_char c s = false.
Proof.
  induction s as [|a s IH]; simpl; [done|].
  destruct (Ascii.eqb a c); simpl; [split; discriminate | exact IH].
Qed.

Lemma before_first_no_char s : has_char c (before_first c s) = false.
Proof.
  induction s as [|a s IH]; simpl; [done|].
  destruct (Ascii.eqb a c) eqn:Ha; simpl; [done|]. by rewrite Ha.
Qed.

Lemma before_first_id s : has_char c s = false → before_first c s = s.
Proof.
  induction s as [|a s IH]; simpl; [done|].
  destruct (Ascii.eqb a c); simpl; [discriminate|]. intros H. by rewrite IH.
Qed.

Lemma before_first_app s t :
  has_char c s = false → before_first c (s +:+ String c t) = s.
Proof.
  induction s as [|a s IH]; rewrite ?append_cons, ?append_nil_l; simpl.
  - by rewrite Ascii.eqb_refl.
  - destruct (Ascii.eqb a c); simpl; [discriminate|]. intros H. by rewrite IH.
Qed.

Lemma after_first_app s t :
  has_char c s = false → after_first c (s +:+ String c t) = Some t.
Proof.
  induction s as [|a s IH]; rewrite ?append_cons, ?append_nil_l; simpl.
  - by rewrite Ascii.eqb_refl.
  - destruct (Ascii.eqb a c); simpl; [discriminate | exact IH].
Qed.

(** [split] cuts at the first separator and goes on with the rest. *)
Lemma split_unfold s :
  split c s = before_first c s ::
              match after_first c s with
              | None => []
              | Some rest => split c rest
              end.
Proof.
  induction s as [|a s IH]; simpl; [done|].
  destruct (Ascii.eqb a c); [done|]. by rewrite IH.
Qed.

Lemma split_no_char s : has_char c s = false → split c s = [s].
Proof.
  intros H. rewrite split_unfold, before_first_id by done.
  by apply after_first_None in H as ->.
Qed.

Lemma split_app s t :
  has_char c s = false → split c (s +:+ String c t) = s :: split c t.
Proof.
  intros H. by rewrite split_unfold, before_first_app, after_first_app.
Qed.

(** A character that is not in [s] is in none of its pieces. *)
Lemma split_pieces d s :
  has_char d s = false → Forall (λ p, has_char d p = false) (split c s).
Proof.
  induction s as [|a s IH]; simpl; [by repeat constructor|].
  intros [Ha Hs]%orb_false_elim. specialize (IH Hs).
  destruct (Ascii.eqb a c); [by constructor|].
  destruct (split c s) as [|p ps]; [by repeat constructor; simpl; rewrite Ha|].
  inversion IH; subst. constructor; [|done]. simpl. by rewrite Ha.
Qed.

(** No piece contains the separator. *)
Lemma split_pieces_sep s : Forall (λ p, has_char c p = false) (split c s).
Proof.
  induction s as [|a s IH]; simpl; [by repeat constructor|].
  destruct (Ascii.eqb a c) eqn:Ha; [by constructor|].
  destruct (split c s) as [|p ps]; [by repeat constructor; simpl; rewrite Ha|].
  inversion IH; subst. constructor; [|done]. simpl. by rewrite Ha.
Qed.

Lemma split_nonempty s : split c s ≠ [].
Proof. by rewrite split_unfold. Qed.

Lemma join_cons x y l :
  join (String c "") (x :: y :: l) = x +:+ String c (join (String c "") (y :: l)).
Proof. reflexivity. Qed.

(** Splitting undoes joining, for pieces without the separator. *)
Lemma split_join l :
  l ≠ [] → Forall (λ p, has_char c p = false) l →
  split c (join (String c "") l) = l.
Proof.
  induction l as [|x [|y l] IH]; intros Hne Hall; [done| |].
  - apply split_no_char. by inversion Hall.
  - inversion Hall as [|? ? Hx Hrest]; subst.
    rewrite join_cons, split_app by done. by rewrite IH.
Qed.

(** Joining undoes splitting. *)
Lemma join_split s : join (String c "") (split c s) = s.
Proof.
  induction s as [|a s IH]; simpl split; [done|].
  destruct (Ascii.eqb a c) eqn:Ha.
  - apply Ascii.eqb_eq in Ha as ->.
    destruct (split c s) as [|p ps] eqn:Hs; [by apply split_nonempty in Hs|].
    by rewrite join_cons, append_nil_l, IH.
  - destruct (split c s) as [|p [|q ps]] eqn:Hs; [by apply split_nonempty in Hs| |].
    + simpl in *. by rewrite IH.
    + rewrite join_cons, append_cons. rewrite join_cons in IH. by rewrite IH.
Qed.

Lemma has_char_join d l :
  has_char d (String c "") = false →
  Forall (λ p, has_char d p = false) l →
  has_char d (join (String c "") l) = false.
Proof.
  intros Hsep. induction l as [|x [|y l] IH]; intros Hall; [done| |].
  - by inversion Hall.
  - inversion Hall as [|? ? Hx Hrest]; subst.
    rewrite join_cons. change (String c ?s) with (String c "" +:+ s).
    rewrite !has_char_app, Hx, Hsep. by apply IH.
Qed.

End Split.
End SplitFacts.

(** ** lib/helpers: the video source *)

Module VideoFacts.
Import JS Helpers.

(** C8 as stated fails for an empty token: the token is provided, and
    nothing is appended to the url. *)
Lemma getRecordingVideoJSOptions_counterexample :
  sources (getRecordingVideoJSOptions
             {| hls_url := "/live/cam1/index.m3u8"; thumbnail_path := "/t.jpg" |}
             (Some ""))
  ≠ [ {| src := "/live/cam1/index.m3u8" +:+ "?token=" +:+ "";
         type := "application/x-mpegURL" |} ].
Proof. discriminate. Qed.

(** C8, amended. There is exactly one source, of type
    ["application/x-mpegURL"]; its [src] is the recording's [hls_url]
    followed by ["?token="] and the token when a non-empty token is given,
    and the [hls_url] itself when no token or an empty one is given. *)
Theorem getRecordingVideoJSOptions_sources
    (recording : Recording) (auth_token : option string) :
  ∃ source,
    sources (getRecordingVideoJSOptions recording auth_token) = [source] ∧
    type source = "application/x-mpegURL" ∧
    (∀ token, auth_token = Some token → token ≠ "" →
       src source = hls_url recording +:+ "?token=" +:+ token) ∧
    (auth_token = None ∨ auth_token = Some "" →
       src source = hls_url recording).
Proof.
  eexists. split; [reflexivity|]. cbn [type src]. repeat split.
  - intros token -> Hne. by destruct token.
  - intros [-> | ->]; apply JSFacts.append_nil_r.
Qed.

Lemma getRecordingVideoJSOptions_sources_witness :
  ∃ source,
    sources (getRecordingVideoJSOptions
               {| hls_url := "/live/cam1/index.m3u8"; thumbnail_path := "/t.jpg" |}
               (Some "abc")) = [source] ∧
    src source = "/live/cam1/index.m3u8?token=abc".
Proof.
  destruct (getRecordingVideoJSOptions_sources
              {| hls_url := "/live/cam1/index.m3u8"; thumbnail_path := "/t.jpg" |}
              (Some "abc")) as (source & Hs & _ & Htoken & _).
  exists source. split; [exact Hs|].
  apply (Htoken "abc"); [reflexivity | discriminate].
Defined.

End VideoFacts.

(** ** lib/helpers: removing a url parameter *)

Module HelpersFacts.
Import JS JSFacts SplitFacts Helpers.

Lemma names_empty (parameter : string) : names parameter "" = false.
Proof. unfold names. by destruct parameter. Qed.

Lemma others_all (parameter : string) (params : list string) :
  Forall (λ param, names parameter param = false) (others parameter params).
Proof.
  unfold others. apply Forall_forall. intros param Hin%list_elem_of_In.
  apply filter_In in Hin as [_ Hn]. by apply negb_true_iff.
Qed.

Lemma others_id (parameter : string) (params : list string) :
  Forall (λ param, names parameter param = false) params →
  others parameter params = params.
Proof.
  unfold others. induction 1 as [|param params Hn _ IH]; simpl; [done|].
  by rewrite Hn, IH.
Qed.

Lemma others_Forall (P : string → Prop) parameter params :
  Forall P params → Forall P (others parameter params).
Proof.
  unfold others. induction 1 as [|param params HP _ IH]; simpl; [done|].
  destruct (negb _); [by constructor | done].
Qed.

(** The function, in terms of the first ["?"] and the one after it. *)
Lemma removeURLParameter_unfold (url parameter : string) :
  removeURLParameter url parameter
  = match after_first "?" url with
    | None => url
    | Some rest =>
        let base := before_first "?" url in
        let queryString := before_first "?" rest in
        if truthy queryString then
          match others parameter (split "&" queryString) with
          | [] => base
          | params => base +:+ "?" +:+ join "&" params
          end
        else url
    end.
Proof.
  unfold removeURLParameter. rewrite split_unfold.
  destruct (after_first "?" url) as [rest|]; [|done].
  rewrite split_unfold. cbv zeta.
  destruct (truthy (before_first "?" rest)); simpl negb; cbv iota; [|done].
  unfold others, names, startsWith.
  by destruct (List.filter _ _).
Qed.

(** What is left of the url when some parameters remain. *)
Lemma rebuilt_url (base queryString parameter : string) :
  has_char "?" base = false →
  has_char "?" queryString = false →
  others parameter (split "&" queryString) ≠ [] →
  let params := others parameter (split "&" queryString) in
  let url' := base +:+ "?" +:+ join "&" params in
  after_first "?" url' = Some (join "&" params) ∧
  before_first "?" url' = base ∧
  has_char "?" (join "&" params) = false ∧
  split "&" (join "&" params) = params.
Proof.
  intros Hbase Hquery Hne params url'.
  assert (Hpieces : Forall (λ p, has_char "&" p = false) params)
    by apply others_Forall, split_pieces_sep.
  assert (Hquest : Forall (λ p, has_char "?" p = false) params)
    by (by apply others_Forall, split_pieces).
  split; [by apply after_first_app|]. split; [by apply before_first_app|].
  split; [by apply has_char_join | by apply split_join].
Qed.

Lemma removeURLParameter_idempotent (url parameter : string) :
  idempotent url parameter.
Proof.
  unfold idempotent. rewrite (removeURLParameter_unfold url).
  destruct (after_first "?" url) as [rest|] eqn:Hafter;
    [|by rewrite removeURLParameter_unfold, Hafter].
  cbv zeta.
  destruct (truthy (before_first "?" rest)) eqn:Htruthy;
    [|by rewrite removeURLParameter_unfold, Hafter; cbv zeta; rewrite Htruthy].
  destruct (others parameter (split "&" (before_first "?" rest)))
    as [|param params] eqn:Hothers.
  - rewrite removeURLParameter_unfold.
    by rewrite (proj2 (after_first_None _ _) (before_first_no_char _ _)).
  - destruct (rebuilt_url (before_first "?" url) (before_first "?" rest) parameter)
      as (Ha & Hb & Hq & Hs);
      [apply before_first_no_char.. | by rewrite Hothers |].
    rewrite Hothers in Ha, Hb, Hq, Hs.
    rewrite removeURLParameter_unfold, Ha. cbv zeta.
    rewrite Hb, (before_first_id _ _ Hq).
    destruct (truthy (join "&" (param :: params))); [|done].
    rewrite Hs, <- Hothers, others_id by apply others_all. by rewrite Hothers.
Qed.

Lemma query_params_no_query (url : string) :
  has_char "?" url = false → query_params url = [].
Proof. intros H. unfold query_params. by apply after_first_None in H as ->. Qed.

Lemma removeURLParameter_no_query (url parameter : string) :
  has_char "?" url = false → removeURLParameter url parameter = url.
Proof.
  intros H. rewrite removeURLParameter_unfold.
  by apply after_first_None in H as ->.
Qed.

Lemma removeURLParameter_one_query (url parameter rest : string) :
  after_first "?" url = Some rest → has_char "?" rest = false →
  removeURLParameter url parameter
  = if truthy rest then
      match others parameter (split "&" rest) with
      | [] => before_first "?" url
      | params => before_first "?" url +:+ "?" +:+ join "&" params
      end
    else url.
Proof.
  intros Hafter Hrest. rewrite removeURLParameter_unfold, Hafter. cbv zeta.
  by rewrite before_first_id.
Qed.

Lemma others_empty_piece (parameter : string) : others parameter [""] = [""].
Proof. unfold others. simpl. by rewrite names_empty. Qed.

(** The query parameters of the result, for a url with one ["?"]. *)
Lemma query_params_result (url parameter rest : string) :
  after_first "?" url = Some rest → has_char "?" rest = false →
  query_params (removeURLParameter url parameter)
  = others parameter (split "&" rest).
Proof.
  intros Hafter Hrest.
  rewrite (removeURLParameter_one_query _ _ _ Hafter Hrest).
  destruct rest as [|a rest]; simpl truthy; cbv iota.
  { unfold query_params. rewrite Hafter. simpl split.
    by rewrite others_empty_piece. }
  destruct (others parameter (split "&" (String a rest))) as [|p ps] eqn:Ho.
  - apply query_params_no_query, before_first_no_char.
  - destruct (rebuilt_url (before_first "?" url) (String a rest) parameter)
      as (Ha & _ & _ & Hs); [apply before_first_no_char | done | by rewrite Ho |].
    rewrite Ho in Ha, Hs. unfold query_params. by rewrite Ha, Hs.
Qed.

Lemma preserves_others_single (url parameter : string) :
  single_query url → preserves_others url parameter.
Proof.
  unfold single_query, preserves_others. intros Hsingle.
  destruct (after_first "?" url) as [rest|] eqn:Hafter.
  - rewrite (query_params_result _ _ _ Hafter Hsingle).
    unfold query_params. by rewrite Hafter.
  - apply after_first_None in Hafter.
    by rewrite removeURLParameter_no_query, query_params_no_query.
Qed.

Lemma removes_parameter_single (url parameter : string) :
  single_query url → removes_parameter url parameter.
Proof.
  intros Hsingle. unfold removes_parameter.
  rewrite (preserves_others_single _ _ Hsingle). apply others_all.
Qed.

Lemma drops_empty_query_single (url parameter : string) :
  single_query url → drops_empty_query url parameter.
Proof.
  unfold single_query, drops_empty_query. intros Hsingle.
  destruct (after_first "?" url) as [rest|] eqn:Hafter.
  - rewrite (removeURLParameter_one_query _ _ _ Hafter Hsingle).
    unfold query_params. rewrite Hafter.
    destruct rest as [|a rest]; simpl truthy; cbv iota.
    { simpl split. by rewrite others_empty_piece. }
    intros ->. apply before_first_no_char.
  - apply after_first_None in Hafter.
    by rewrite removeURLParameter_no_query.
Qed.

(** C10: the postconditions fail on the code.  On a url with a second
    ["?"] nothing is to be removed, and yet the text from the second ["?"]
    on is lost, so that the parameter [tab] no longer has the value it
    had.  And when the only parameter is removed from a query that ends
    in ["&"], the ["?"] stays although no parameter remains. *)
Theorem removeURLParameter_truncates :
  removeURLParameter "/events?tab=/list?date=2024-05-01" "camera"
  = "/events?tab=/list" ∧
  ¬ removeURLParameter_post "/events?tab=/list?date=2024-05-01" "camera" ∧
  removeURLParameter "/events?camera=1&" "camera" = "/events?".
Proof.
  split; [reflexivity|]. split; [|reflexivity].
  intros (_ & Hkeep & _). vm_compute in Hkeep. discriminate Hkeep.
Qed.

(** X22. Removing a parameter a second time changes nothing, for every
    url and every parameter name. *)
Theorem removeURLParameter_stable (url parameter : string) :
  removeURLParameter (removeURLParameter url parameter) parameter
  = removeURLParameter url parameter.
Proof. apply removeURLParameter_idempotent. Qed.

(** X23. For a url with at most one ["?"], take as its pieces the texts
    between ["&"] after the ["?"], an empty text included.  The result
    has no piece that starts with [parameter] followed by ["="]; its
    pieces are the other pieces of the url, in their order; a url without
    ["?"] comes back unchanged; when no piece is left the result has no
    ["?"]; and removing the parameter a second time changes nothing. *)
Theorem removeURLParameter_single_query (url parameter : string) :
  single_query url → removeURLParameter_post url parameter.
Proof.
  intros Hsingle. repeat split.
  - by apply removes_parameter_single.
  - by apply preserves_others_single.
  - intros Hno. by apply removeURLParameter_no_query.
  - by apply drops_empty_query_single.
  - apply removeURLParameter_idempotent.
Qed.

Lemma removeURLParameter_single_query_witness :
  removeURLParameter "/events?camera=cam1&tab=timeline&date=2024-05-01" "camera"
  = "/events?tab=timeline&date=2024-05-01" ∧
  removeURLParameter_post "/events?camera=cam1&tab=timeline&date=2024-05-01" "camera".
Proof.
  split; [reflexivity|].
  apply removeURLParameter_single_query. reflexivity.
Defined.

End HelpersFacts.

(** ** The colour mode *)

Module ColorModeFacts.
Import ColorMode.

(** C5. [toggleColorMode] sends light to dark and dark to light and
    writes the new mode under ["chosenMode"]; two toggles give back the
    original mode, and the stored value is then the original mode. *)
Theorem toggleColorMode_involution (st : State) :
  mode (toggleColorMode st) = match mode st with light => dark | dark => light end ∧
  localStorage (toggleColorMode st) !! "chosenMode"
    = Some (mode_text (mode (toggleColorMode st))) ∧
  mode (toggleColorMode (toggleColorMode st)) = mode st ∧
  localStorage (toggleColorMode (toggleColorMode st)) !! "chosenMode"
    = Some (mode_text (mode st)).
Proof.
  unfold toggleColorMode; cbn [mode localStorage].
  rewrite !lookup_insert_eq.
  by destruct (mode st).
Qed.

(** C6. On load a stored ["dark"] or ["light"] decides the mode whatever
    the OS prefers; any other stored value, or none, leaves the choice to
    the OS preference. *)
Theorem chosenModeEffect_mode (prefers_dark : bool) (st : State) :
  (localStorage st !! "chosenMode" = Some "dark" →
     mode (chosenModeEffect prefers_dark st) = dark) ∧
  (localStorage st !! "chosenMode" = Some "light" →
     mode (chosenModeEffect prefers_dark st) = light) ∧
  (localStorage st !! "chosenMode" ≠ Some "dark" →
   localStorage st !! "chosenMode" ≠ Some "light" →
     mode (chosenModeEffect prefers_dark st)
     = if prefers_dark then dark else light).
Proof.
  unfold chosenModeEffect, preferredMode.
  repeat split.
  - intros ->. by rewrite decide_True.
  - intros ->. rewrite decide_False by discriminate. by rewrite decide_True.
  - intros Hd Hl. by rewrite !decide_False.
Qed.

(** A stored ["dark"] wins over a light OS preference, a stored ["light"]
    over a dark one, and a stored ["blue"] is ignored. *)
Lemma chosenModeEffect_mode_witness :
  mode (chosenModeEffect false (initial {["chosenMode" := "dark"]})) = dark ∧
  mode (chosenModeEffect true (initial {["chosenMode" := "light"]})) = light ∧
  mode (chosenModeEffect true (initial {["chosenMode" := "blue"]})) = dark.
Proof.
  split; [|split].
  - apply (proj1 (chosenModeEffect_mode false (initial {["chosenMode" := "dark"]}))).
    reflexivity.
  - apply (proj1 (proj2 (chosenModeEffect_mode true (initial {["chosenMode" := "light"]})))).
    reflexivity.
  - apply (proj2 (proj2 (chosenModeEffect_mode true (initial {["chosenMode" := "blue"]}))));
      vm_compute; discriminate.
Defined.

End ColorModeFacts.

(** ** The request interceptor *)

Module AuthContextFacts.
Import JS Eff AuthContext.

Section Facts.

Context {Other TokenStore : Type}.
Variable getToken : Config Other → TokenStore → option string * TokenStore.
Variable cookies : gmap string string.
Variable config : Config Other.
Variable w : World TokenStore.

Lemma needs_session_bypass :
  needs_session config →
  includes_opt (url config) "/auth/enabled"
  || includes_opt (url config) "/auth/login"
  || includes_opt (url config) "/onboarding" = false.
Proof. by intros (-> & -> & ->). Qed.

(** With auth enabled and no usable [user] cookie the request is
    rejected, after the toast, and [getToken] is not consulted. *)
Lemma interceptor_no_session (auth : AuthEnabledResponse) :
  enabled auth = true → needs_session config →
  truthy_opt (cookies !! "user") = false →
  interceptor getToken (Some auth) cookies config w
  = (Thrown (mkError "Invalid session."),
     {| toasts := toasts w ++ ["Session expired, please log in again"];
        tokens := tokens w |}).
Proof.
  intros He Hn Hc. unfold interceptor, request_interceptor.
  rewrite He, (needs_session_bypass Hn), Hc. reflexivity.
Qed.

(** With auth enabled and a usable [user] cookie, a request that is not
    for ["/auth/token"] is answered from [getToken]. *)
Lemma interceptor_token_step (auth : AuthEnabledResponse) token store :
  enabled auth = true → needs_session config →
  truthy_opt (cookies !! "user") = true →
  includes_opt (url config) "/auth/token" = false →
  getToken config (tokens w) = (token, store) →
  interceptor getToken (Some auth) cookies config w
  = (Returned (if truthy_opt token
               then set_header "Authorization" ("Bearer " +:+ default "" token) config
               else config),
     {| toasts := toasts w; tokens := store |}).
Proof.
  intros He Hn Hc Ht Hg. unfold interceptor, request_interceptor.
  rewrite He, (needs_session_bypass Hn), Hc, Ht. simpl.
  unfold mbind, M_bind, await_getToken, resolves. rewrite Hg.
  destruct token as [t|]; simpl; [|done]. by destruct (truthy t).
Qed.

Lemma interceptor_token_request (auth : AuthEnabledResponse) :
  enabled auth = true →
  truthy_opt (cookies !! "user") = true →
  includes_opt (url config) "/auth/token" = true →
  interceptor getToken (Some auth) cookies config w = (Returned config, w).
Proof.
  intros He Hc Ht. unfold interceptor, request_interceptor. rewrite He, Hc, Ht. simpl.
  by destruct (_ || _).
Qed.

(** C2. Before the auth-enabled response has loaded, a request for
    ["/auth/enabled"] is returned unchanged and any other request is
    rejected with an error; once auth has loaded with [enabled = false],
    every request is returned unchanged, and neither a toast nor the token
    store nor a header is touched. *)
Theorem interceptor_gating :
  (includes_opt (url config) "/auth/enabled" = true →
     interceptor getToken None cookies config w = (Returned config, w)) ∧
  (includes_opt (url config) "/auth/enabled" = false →
     interceptor getToken None cookies config w
     = (Thrown (mkError "Request blocked, auth not loaded yet."), w)) ∧
  (∀ auth : AuthEnabledResponse, enabled auth = false →
     interceptor getToken (Some auth) cookies config w = (Returned config, w)).
Proof.
  unfold interceptor, request_interceptor. repeat split.
  - by intros ->.
  - by intros ->.
  - by intros auth ->.
Qed.


End Facts.

Section Bearer.

Context {Other TokenStore : Type}.
Variable normalizeValue : string → string.
Variable getToken :
  Config Other → TokenStore → Outcome (option string) * TokenStore.
Variable cookies : gmap string string.
Variable config : Config Other.
Variable w : World TokenStore.

(** C4, amended. With auth enabled, a [user] cookie with a non-empty
    value and a request that passes none of the three session-free paths
    and is not for ["/auth/token"]: a non-empty token that [getToken]
    resolves to is set under ["Authorization"] as ["Bearer <token>"], in
    the form in which axios keeps a header value, and nothing else in the
    config changes; with no token, or an empty one, the config comes back
    unchanged.  A request for ["/auth/token"] made with such a cookie
    comes back unchanged. *)
Theorem interceptor_bearer_token (auth : AuthEnabledResponse) :
  enabled auth = true →
  truthy_opt (cookies !! "user") = true →
  (needs_session config →
   includes_opt (url config) "/auth/token" = false →
   ∀ token store, getToken config (tokens w) = (Returned token, store) →
     (∀ t, token = Some t → t ≠ "" →
        ∃ config',
          request_interceptor normalizeValue getToken (Some auth) cookies config w
          = (Returned config', {| toasts := toasts w; tokens := store |}) ∧
          headers config' !! "Authorization"
          = Some (normalizeValue ("Bearer " +:+ t)) ∧
          (∀ name, name ≠ "Authorization" →
             headers config' !! name = headers config !! name) ∧
          url config' = url config ∧
          other config' = other config) ∧
     (token = None ∨ token = Some "" →
        request_interceptor normalizeValue getToken (Some auth) cookies config w
        = (Returned config, {| toasts := toasts w; tokens := store |}))) ∧
  (includes_opt (url config) "/auth/token" = true →
   request_interceptor normalizeValue getToken (Some auth) cookies config w
   = (Returned config, w)).
Proof.
  intros He Hc. unfold request_interceptor. rewrite He, Hc. cbn [negb andb].
  split.
  - intros (-> & -> & ->) -> token store Hg. cbn [orb].
    unfold mbind, M_bind, await_getToken. rewrite Hg. split.
    + intros t -> Hne. destruct t as [|a t]; [done|]. cbn [truthy].
      eexists. split; [reflexivity|]. cbn [headers url other AxiosHeaders_set].
      rewrite lookup_insert_eq. repeat split.
      intros name Hname. by rewrite lookup_insert_ne.
    + by intros [-> | ->].
  - intros ->. by destruct (_ || _).
Qed.

End Bearer.

Lemma interceptor_gating_witness :
  interceptor (token_is None) None ∅
    {| url := Some "/api/v1/auth/enabled"; headers := ∅; other := () |} fresh_world
  = (Returned {| url := Some "/api/v1/auth/enabled"; headers := ∅; other := () |},
     fresh_world) ∧
  interceptor (token_is None) None ∅ cameras_request fresh_world
  = (Thrown (mkError "Request blocked, auth not loaded yet."), fresh_world) ∧
  interceptor (token_is None)
    (Some {| enabled := false; onboarding_complete := true |}) ∅
    cameras_request fresh_world
  = (Returned cameras_request, fresh_world).
Proof.
  split; [|split].
  - apply (proj1 (interceptor_gating (token_is None) ∅
      {| url := Some "/api/v1/auth/enabled"; headers := ∅; other := () |}
      fresh_world)).
    reflexivity.
  - apply (proj1 (proj2 (interceptor_gating (token_is None) ∅ cameras_request
      fresh_world))).
    reflexivity.
  - apply (proj2 (proj2 (interceptor_gating (token_is None) ∅ cameras_request
      fresh_world))).
    reflexivity.
Defined.



(** C4 as stated fails twice.  A [user] cookie exists, with an empty
    value, and [getToken] has a token: no header is set, the request is
    rejected.  And with a good cookie, an empty token from [getToken] is
    not set as ["Bearer "]: the config comes back as it was. *)
Lemma interceptor_bearer_token_counterexample :
  (interceptor (token_is (Some "abc")) (Some enabled_auth) {["user" := ""]}
     cameras_request fresh_world).1
  ≠ Returned (set_header "Authorization" ("Bearer " +:+ "abc") cameras_request) ∧
  (interceptor (token_is (Some "")) (Some enabled_auth) {["user" := "admin"]}
     cameras_request fresh_world).1
  ≠ Returned (set_header "Authorization" ("Bearer " +:+ "") cameras_request).
Proof.
  split.
  - discriminate.
  - intros Heq.
    apply (f_equal (λ r : Outcome (Config ()),
                      match r with
                      | Returned c => headers c !! "Authorization"
                      | Thrown _ => None
                      end)) in Heq.
    vm_compute in Heq. discriminate Heq.
Qed.

Lemma interceptor_bearer_token_witness :
  ∃ config',
    interceptor (token_is (Some "abc")) (Some enabled_auth) {["user" := "admin"]}
      cameras_request fresh_world
    = (Returned config', fresh_world) ∧
    headers config' !! "Authorization" = Some "Bearer abc" ∧
    (∀ name, name ≠ "Authorization" →
       headers config' !! name = headers cameras_request !! name) ∧
    url config' = url cameras_request ∧
    other config' = other cameras_request.
Proof.
  refine (proj1 (proj1 (interceptor_bearer_token (λ value, value)
            (resolves (token_is (Some "abc")))
            {["user" := "admin"]} cameras_request fresh_world enabled_auth
            _ _) _ _ (Some "abc") () _) "abc" _ _).
  - reflexivity.
  - reflexivity.
  - repeat split.
  - reflexivity.
  - reflexivity.
  - reflexivity.
  - discriminate.
Defined.

End AuthContextFacts.

(** ** The onboarding mutation *)

Module OnboardingFacts.
Import JS Onboarding.

Section Facts.

Context {OnboardingResponse : Type}.
Variable clientId : string.
Variable server : string → Body → OnboardingResponse + APIErrorResponse.

(** C7. The mutation posts [client_id], [name], [username] and [password]
    to ["/onboarding"].  When the request succeeds, [storeTokens] gets the
    response data and the toast ["User created successfully"] is shown.
    When it fails, one error toast is shown: its text contains the
    server's error field when that field is present (and is
    ["Error creating user: "] followed by it when it is not empty), and
    is ["An error occurred: "] followed by [error.message] when there is
    no such field. *)
Theorem onboarding_outcomes (v : OnboardingVariables) (w : World OnboardingResponse) :
  let body := {| body_client_id := clientId; body_name := name v;
                 body_username := username v; body_password := password v |} in
  (∀ data, server "/onboarding" body = inl data →
     mutate clientId server v w
     = {| posts := posts w ++ [("/onboarding", body)];
          stored := stored w ++ [data];
          toasts := toasts w ++ [toast_success "User created successfully"] |}) ∧
  (∀ error, server "/onboarding" body = inr error →
     ∃ text,
       mutate clientId server v w
       = {| posts := posts w ++ [("/onboarding", body)];
            stored := stored w;
            toasts := toasts w ++ [toast_error text] |} ∧
       (∀ r e, response error = Some r → data_error r = Some e →
          includes text e = true ∧
          (e ≠ "" → text = "Error creating user: " +:+ e)) ∧
       ((response error = None ∨
         ∃ r, response error = Some r ∧ data_error r = None) →
          text = "An error occurred: " +:+ message error)).
Proof.
  intros body. split.
  - intros data Hs. unfold mutate, onboarding, viseronAPI_post.
    fold body. by rewrite Hs.
  - intros error Hs. exists (onError_text error). split; [|split].
    + unfold mutate, onboarding, viseronAPI_post. fold body. by rewrite Hs.
    + intros r e Hr He. unfold onError_text, server_error. rewrite Hr, He.
      destruct e as [|a e]; simpl truthy; cbv iota.
      * split; [apply JSFacts.includes_nil | done].
      * split; [apply JSFacts.includes_app_r | done].
    + unfold onError_text, server_error.
      by intros [-> | (r & -> & ->)].
Qed.

End Facts.

(** *** Concrete runs: a server that accepts, one that refuses the user
    name, and one that cannot be reached. *)
Lemma onboarding_outcomes_witness :
  mutate "client-1" (λ _ _, inl "tokens") ann no_requests
  = {| posts := [("/onboarding", ann_body)];
       stored := ["tokens"];
       toasts := [toast_success "User created successfully"] |} ∧
  (∃ text,
     mutate (OnboardingResponse := string) "client-1"
       (λ _ _, inr username_taken) ann no_requests
     = {| posts := [("/onboarding", ann_body)];
          stored := [];
          toasts := [toast_error text] |} ∧
     text = "Error creating user: Username taken") ∧
  (∃ text,
     mutate (OnboardingResponse := string) "client-1"
       (λ _ _, inr network_error) ann no_requests
     = {| posts := [("/onboarding", ann_body)];
          stored := [];
          toasts := [toast_error text] |} ∧
     text = "An error occurred: Network Error").
Proof.
  split; [|split].
  - apply (proj1 (onboarding_outcomes "client-1" (λ _ _, inl "tokens")
                    ann no_requests)).
    reflexivity.
  - destruct (proj2 (onboarding_outcomes (OnboardingResponse := string)
                       "client-1" (λ _ _, inr username_taken) ann no_requests)
                    username_taken eq_refl) as (text & Hrun & Hfield & _).
    exists text. split; [exact Hrun|].
    apply (Hfield {| data_error := Some "Username taken" |} "Username taken");
      [reflexivity | reflexivity | discriminate].
  - destruct (proj2 (onboarding_outcomes (OnboardingResponse := string)
                       "client-1" (λ _ _, inr network_error) ann no_requests)
                    network_error eq_refl) as (text & Hrun & _ & Hnone).
    exists text. split; [exact Hrun|].
    apply Hnone. by left.
Defined.

End OnboardingFacts.

(** ** The camera-selection store *)

Module CameraStoreFacts.
Import CameraStore.

Lemma elem_of_enabled_keys (cams : gmap string bool) (id : string) :
  id ∈ enabled_keys cams ↔ cams !! id = Some true.
Proof.
  unfold enabled_keys. rewrite list_elem_of_fmap. split.
  - intros ([k v] & -> & Hin). apply list_elem_of_filter in Hin as [Hv Hin].
    simpl in *. subst v. by apply elem_of_map_to_list.
  - intros Hid. exists (id, true). split; [done|].
    apply list_elem_of_filter. split; [done|]. by apply elem_of_map_to_list.
Qed.

Lemma is_on_true (cams : gmap string bool) (id : string) :
  is_on cams id = true ↔ cams !! id = Some true.
Proof. unfold is_on. destruct (cams !! id) as [[]|]; simpl; split; congruence. Qed.

Lemma is_on_insert_eq (cams : gmap string bool) (id : string) (v : bool) :
  is_on (<[id := v]> cams) id = v.
Proof. unfold is_on. by rewrite lookup_insert_eq. Qed.

Lemma is_on_insert_ne (cams : gmap string bool) (id k : string) (v : bool) :
  id ≠ k → is_on (<[id := v]> cams) k = is_on cams k.
Proof. intros Hne. unfold is_on. by rewrite lookup_insert_ne. Qed.

(** Reading and writing one key. *)
Lemma proto_inherited : "__proto__" ∈ prototype_names.
Proof. unfold prototype_names. set_solver. Qed.

Lemma plain_settable (cams : gmap string bool) (id : string) :
  plain cams id → id ≠ "__proto__" ∨ is_Some (cams !! id).
Proof.
  intros [Hown | Hnot]; [by right|]. left. intros ->.
  apply Hnot, proto_inherited.
Qed.

Lemma reads_true_plain (cams : gmap string bool) (id : string) :
  plain cams id → reads_true cams id = is_on cams id.
Proof.
  unfold reads_true, is_on. intros [[v Hv] | Hnot].
  - by rewrite Hv.
  - destruct (cams !! id); [done|]. by apply bool_decide_eq_false.
Qed.

Lemma reads_true_insert_eq (cams : gmap string bool) (id : string) (v : bool) :
  reads_true (<[id := v]> cams) id = v.
Proof. unfold reads_true. by rewrite lookup_insert_eq. Qed.

Lemma reads_true_false (cams : gmap string bool) (id : string) :
  reads_true cams id = false → cams !! id ≠ Some true.
Proof. unfold reads_true. intros Hr Hid. rewrite Hid in Hr. done. Qed.

Lemma assign_insert (cams : gmap string bool) (id : string) (v : bool) :
  id ≠ "__proto__" ∨ is_Some (cams !! id) →
  assign id v cams = <[id := v]> cams.
Proof.
  intros Hset. unfold assign. rewrite decide_False; [done|].
  intros [-> Hnone]. destruct Hset as [? | [? Hsome]]; congruence.
Qed.

Lemma assign_lookup_ne (cams : gmap string bool) (id k : string) (v : bool) :
  id ≠ k → assign id v cams !! k = cams !! k.
Proof.
  intros Hne. unfold assign. case_decide; [done|]. by rewrite lookup_insert_ne.
Qed.

Lemma assign_lookup_eq (cams : gmap string bool) (id : string) (v : bool) :
  assign id v cams !! id
  = if decide (id = "__proto__" ∧ cams !! id = None) then None else Some v.
Proof.
  unfold assign. case_decide as Hd; [by destruct Hd | by rewrite lookup_insert_eq].
Qed.

(** The fields after one toggle. *)
Lemma toggleCamera_assign id state :
  cameras (toggleCamera id state)
  = assign id (negb (reads_true (cameras state) id)) (cameras state).
Proof. reflexivity. Qed.

Lemma toggleCamera_order id state :
  selectionOrder (toggleCamera id state)
  = if reads_true (cameras (toggleCamera id state)) id
    then selectionOrder state ++ [id]
    else filter (λ x, x ≠ id) (selectionOrder state).
Proof. reflexivity. Qed.

Lemma toggleCamera_cameras id state :
  id ≠ "__proto__" ∨ is_Some (cameras state !! id) →
  cameras (toggleCamera id state)
  = <[id := negb (reads_true (cameras state) id)]> (cameras state).
Proof. intros Hset. by rewrite toggleCamera_assign, assign_insert. Qed.

Lemma toggleCamera_selectionOrder id state :
  id ≠ "__proto__" ∨ is_Some (cameras state !! id) →
  selectionOrder (toggleCamera id state)
  = if reads_true (cameras state) id
    then filter (λ x, x ≠ id) (selectionOrder state)
    else selectionOrder state ++ [id].
Proof.
  intros Hset.
  rewrite toggleCamera_order, toggleCamera_cameras, reads_true_insert_eq by done.
  by destruct (reads_true (cameras state) id).
Qed.

Lemma toggleCamera_lookup_ne id state k :
  id ≠ k → cameras (toggleCamera id state) !! k = cameras state !! k.
Proof. intros Hne. by rewrite toggleCamera_assign, assign_lookup_ne. Qed.

(** Whatever the state before, [toggleCamera] leaves [selectedCameras]
    equal to the set of keys that are [true]. *)
Lemma toggleCamera_selected_matches id state :
  selected_matches (toggleCamera id state).
Proof. intros x. apply elem_of_enabled_keys. Qed.

Lemma toggleCamera_order_matches id state :
  id ≠ "__proto__" ∨ is_Some (cameras state !! id) →
  order_matches state → order_matches (toggleCamera id state).
Proof.
  intros Hset [Hnodup Hin]. unfold order_matches.
  rewrite (toggleCamera_selectionOrder _ _ Hset), (toggleCamera_cameras _ _ Hset).
  destruct (reads_true (cameras state) id) eqn:Hon; simpl negb.
  - split; [by apply NoDup_filter|].
    intros x. rewrite list_elem_of_filter, Hin.
    destruct (decide (id = x)) as [->|Hne].
    + rewrite lookup_insert_eq. intuition congruence.
    + rewrite lookup_insert_ne by done. intuition congruence.
  - assert (Hfresh : id ∉ selectionOrder state).
    { rewrite Hin. by apply reads_true_false. }
    split.
    + apply NoDup_app. split; [done|]. split; [|apply NoDup_singleton].
      intros x Hx ->%list_elem_of_singleton. done.
    + intros x. rewrite elem_of_app, list_elem_of_singleton, Hin.
      destruct (decide (id = x)) as [->|Hne].
      * rewrite lookup_insert_eq. intuition congruence.
      * rewrite lookup_insert_ne by done. intuition congruence.
Qed.

Lemma toggleCamera_consistent id state :
  id ≠ "__proto__" ∨ is_Some (cameras state !! id) →
  consistent state → consistent (toggleCamera id state).
Proof.
  intros Hset [_ Ho]. split;
    [apply toggleCamera_selected_matches | by apply toggleCamera_order_matches].
Qed.

Lemma selectSingleCamera_lookup id state x :
  cameras (selectSingleCamera id state) !! x = Some true
  ↔ is_Some (cameras state !! x) ∧ x = id.
Proof.
  unfold selectSingleCamera; cbn [cameras]. rewrite map_lookup_imap.
  destruct (cameras state !! x) as [v|]; simpl.
  - split.
    + intros [= Heq]. apply String.eqb_eq in Heq. eauto.
    + intros [_ ->]. by rewrite String.eqb_refl.
  - split; [done | by intros [[? ?] _]].
Qed.

(** [selectSingleCamera] keeps the store consistent when the camera is
    already a key of the map. *)
Lemma selectSingleCamera_consistent id state :
  is_Some (cameras state !! id) →
  consistent (selectSingleCamera id state).
Proof.
  intros Hkey. split; [|split].
  - intros x. rewrite selectSingleCamera_lookup.
    cbn [selectedCameras selectSingleCamera]. rewrite list_elem_of_singleton.
    intuition congruence.
  - apply NoDup_singleton.
  - intros x. rewrite selectSingleCamera_lookup.
    cbn [selectionOrder selectSingleCamera]. rewrite list_elem_of_singleton.
    intuition congruence.
Qed.

Lemma initial_consistent : consistent initial.
Proof.
  split; [|split].
  - intros x. cbn. rewrite lookup_empty, elem_of_nil. intuition congruence.
  - apply NoDup_nil_2.
  - intros x. cbn. rewrite lookup_empty, elem_of_nil. intuition congruence.
Qed.

(** The invariant does hold along every run that applies
    [selectSingleCamera] to known cameras only and does not toggle a
    ["__proto__"] that the map does not have. *)
Lemma run_consistent (actions : list Action) (state : CameraState) :
  consistent state → known_selects actions state →
  consistent (run actions state).
Proof.
  revert state. induction actions as [|a actions IH]; intros state Hc Hk; [done|].
  destruct Hk as [Ha Hk]. apply IH; [|done].
  destruct a as [id|id]; simpl.
  - by apply toggleCamera_consistent.
  - by apply selectSingleCamera_consistent.
Qed.

(** C1: the invariant fails on the code.  From the initial state,
    [selectSingleCamera "cam1"] leaves the map empty and yet lists
    ["cam1"] as selected, so [selectedCameras] is not the set of keys
    that are [true]; a [toggleCamera "cam1"] after it puts ["cam1"]
    twice into [selectionOrder]. *)
Theorem selectSingleCamera_unknown_camera :
  run [SelectSingleCamera "cam1"] initial
  = {| cameras := ∅; selectedCameras := ["cam1"]; selectionOrder := ["cam1"] |} ∧
  ¬ consistent (run [SelectSingleCamera "cam1"] initial) ∧
  run [SelectSingleCamera "cam1"; ToggleCamera "cam1"] initial
  = {| cameras := {["cam1" := true]};
       selectedCameras := ["cam1"];
       selectionOrder := ["cam1"; "cam1"] |}.
Proof.
  split; [reflexivity|]. split; [|by vm_compute].
  intros [Hsel _]. specialize (Hsel "cam1").
  assert (Hin : "cam1" ∈ selectedCameras (run [SelectSingleCamera "cam1"] initial))
    by (apply list_elem_of_singleton; reflexivity).
  apply Hsel in Hin. discriminate Hin.
Qed.

(** Two toggles of the same camera, field by field. *)
Lemma toggleCamera_twice_cameras id state :
  id ≠ "__proto__" ∨ is_Some (cameras state !! id) →
  cameras (toggleCamera id (toggleCamera id state))
  = <[id := reads_true (cameras state) id]> (cameras state).
Proof.
  intros Hset.
  rewrite (toggleCamera_cameras id (toggleCamera id state));
    rewrite (toggleCamera_cameras id state Hset);
    [|right; rewrite lookup_insert_eq; eauto].
  by rewrite reads_true_insert_eq, insert_insert_eq, negb_involutive.
Qed.

Lemma toggleCamera_twice_selectionOrder id state :
  id ≠ "__proto__" ∨ is_Some (cameras state !! id) →
  selectionOrder (toggleCamera id (toggleCamera id state))
  = filter (λ x, x ≠ id) (selectionOrder state)
    ++ (if reads_true (cameras state) id then [id] else []).
Proof.
  intros Hset.
  rewrite (toggleCamera_selectionOrder id (toggleCamera id state));
    rewrite (toggleCamera_cameras id state Hset);
    [|right; rewrite lookup_insert_eq; eauto].
  rewrite reads_true_insert_eq, (toggleCamera_selectionOrder id state Hset).
  destruct (reads_true (cameras state) id); simpl negb; cbv iota.
  - done.
  - rewrite filter_app, filter_cons_False, filter_nil by intuition congruence.
    done.
Qed.

(** C9 as stated fails twice.  Toggling a camera that is not yet a key
    twice leaves it in the map, with value [false].  And a camera whose
    identifier is a name that objects inherit, such as ["constructor"],
    reads as on before it is a key: two toggles leave it in the map with
    value [true], selected. *)
Lemma toggleCamera_twice_counterexample :
  ¬ double_toggle_restores initial "cam1" ∧
  ¬ double_toggle_restores initial "constructor".
Proof.
  split; intros [Hcams _]; rewrite toggleCamera_twice_cameras in Hcams
    by (by left).
  - apply (f_equal (λ m : gmap string bool, m !! "cam1")) in Hcams.
    rewrite lookup_insert_eq in Hcams. discriminate Hcams.
  - apply (f_equal (λ m : gmap string bool, m !! "constructor")) in Hcams.
    rewrite lookup_insert_eq in Hcams. discriminate Hcams.
Qed.

(** C9, amended.  Let [id] be a key of the map, or not a name that
    objects inherit.  After two toggles of [id], every key is on or off as
    it was before: the map is the original one when [id] was a key of it,
    and the original one with [id] set to [false] when it was not.
    [selectedCameras] is the set of keys that were [true] before, so it is
    the original [selectedCameras] as a set whenever that list was such.
    [selectionOrder] is the original one without [id], followed by [id]
    when [id] was on. *)
Theorem toggleCamera_twice (state : CameraState) (id : string) :
  plain (cameras state) id →
  let state2 := toggleCamera id (toggleCamera id state) in
  (∀ k, is_on (cameras state2) k = is_on (cameras state) k) ∧
  (is_Some (cameras state !! id) → cameras state2 = cameras state) ∧
  (cameras state !! id = None → cameras state2 = <[id := false]> (cameras state)) ∧
  (∀ x, x ∈ selectedCameras state2 ↔ cameras state !! x = Some true) ∧
  (selected_matches state →
     ∀ x, x ∈ selectedCameras state2 ↔ x ∈ selectedCameras state) ∧
  selectionOrder state2
  = filter (λ x, x ≠ id) (selectionOrder state)
    ++ (if is_on (cameras state) id then [id] else []).
Proof.
  intros Hplain state2. subst state2.
  set (state2 := toggleCamera id (toggleCamera id state)).
  pose proof (plain_settable _ _ Hplain) as Hset.
  assert (Hcams : cameras state2 = <[id := is_on (cameras state) id]> (cameras state)).
  { rewrite <- (reads_true_plain _ _ Hplain). by apply toggleCamera_twice_cameras. }
  assert (Hon : ∀ k, is_on (cameras state2) k = is_on (cameras state) k).
  { intros k. rewrite Hcams.
    destruct (decide (id = k)) as [->|Hne];
      [apply is_on_insert_eq | by apply is_on_insert_ne]. }
  assert (Hsel : ∀ x, x ∈ selectedCameras state2 ↔ cameras state !! x = Some true).
  { intros x. etrans; [apply toggleCamera_selected_matches|].
    fold state2. by rewrite <- !is_on_true, Hon. }
  split; [exact Hon|]. split; [|split; [|split; [exact Hsel|split]]].
  - intros [v Hv]. rewrite Hcams. apply insert_id. unfold is_on. by rewrite Hv.
  - intros Hnone. rewrite Hcams. unfold is_on. by rewrite Hnone.
  - intros Hm x. by rewrite Hsel, (Hm x).
  - rewrite <- (reads_true_plain _ _ Hplain).
    by apply toggleCamera_twice_selectionOrder.
Qed.

(** Two cameras on, the first one toggled twice: it moves to the end. *)
Lemma toggleCamera_twice_witness :
  let state := run [ToggleCamera "cam1"; ToggleCamera "cam2"] initial in
  let state2 := toggleCamera "cam1" (toggleCamera "cam1" state) in
  cameras state2 = cameras state ∧
  (∀ x, x ∈ selectedCameras state2 ↔ x ∈ selectedCameras state) ∧
  selectionOrder state = ["cam1"; "cam2"] ∧
  selectionOrder state2 = ["cam2"; "cam1"].
Proof.
  intros state state2.
  assert (Hplain : plain (cameras state) "cam1") by (left; exists true; reflexivity).
  destruct (toggleCamera_twice state "cam1" Hplain)
    as (_ & Hkey & _ & _ & Hsel & Hord).
  split; [|split; [|split]].
  - apply Hkey. exists true. reflexivity.
  - apply Hsel. apply (toggleCamera_selected_matches "cam2").
  - reflexivity.
  - unfold state2. rewrite Hord. reflexivity.
Defined.

End CameraStoreFacts.

(** ** lib/helpers: the browser url *)

Module NavigationFacts.
Import JS JSFacts SplitFacts Helpers HelpersFacts Navigation.

Section Cut.
Variable c : ascii.

(** A string with a [c] in it is what comes before the first one, the
    [c], and what comes after. *)
Lemma before_after s rest :
  after_first c s = Some rest → s = before_first c s +:+ String c rest.
Proof.
  induction s as [|a s IH]; simpl; [done|].
  destruct (Ascii.eqb a c) eqn:Ha.
  - apply Ascii.eqb_eq in Ha as ->. by intros [= ->].
  - intros Hs. by rewrite append_cons, <- IH.
Qed.

Lemma after_first_app_Some s rest t :
  after_first c s = Some rest → after_first c (s +:+ t) = Some (rest +:+ t).
Proof.
  induction s as [|a s IH]; [done|]. rewrite append_cons. simpl.
  destruct (Ascii.eqb a c); [by intros [= ->] | exact IH].
Qed.

Lemma before_first_app_Some s rest t :
  after_first c s = Some rest → before_first c (s +:+ t) = before_first c s.
Proof.
  induction s as [|a s IH]; [done|]. rewrite append_cons. simpl.
  destruct (Ascii.eqb a c); [done|]. intros Hs. by rewrite IH.
Qed.

Lemma split_app_sep s t :
  split c (s +:+ String c t) = split c s ++ split c t.
Proof.
  induction s as [|a s IH].
  - rewrite append_nil_l. simpl. by rewrite Ascii.eqb_refl.
  - rewrite append_cons. simpl. destruct (Ascii.eqb a c); [by rewrite IH|].
    rewrite IH. destruct (split c s) as [|p ps] eqn:Hs; [|done].
    by apply split_nonempty in Hs.
Qed.

End Cut.

Lemma truthy_app_cons (s : string) (a : ascii) (t : string) :
  truthy (s +:+ String a t) = true.
Proof. by destruct s. Qed.

Lemma param_truthy key value : truthy (param key value) = true.
Proof. apply truthy_app_cons. Qed.

Lemma param_names key value : names key (param key value) = true.
Proof.
  unfold names, param. rewrite <- append_assoc. apply prefix_app.
Qed.

Lemma others_app parameter l k :
  others parameter (l ++ k) = others parameter l ++ others parameter k.
Proof. apply List.filter_app. Qed.

Lemma others_param key value : others key [param key value] = [].
Proof. unfold others. simpl. by rewrite param_names. Qed.

(** The url that [insertURLParameter] pushes. *)
Lemma insertURLParameter_pushState serialise key value w :
  insertURLParameter serialise key value w
  = pushState serialise (inserted_url key value (href w)) w.
Proof.
  unfold insertURLParameter, inserted_url, param. cbv zeta.
  by rewrite !append_assoc.
Qed.

(** Appending a parameter to a url adds it after the parameters that the
    url has. *)
Lemma query_params_appended url kv :
  has_char "&" kv = false →
  query_params (url +:+ (if has_char "?" url then "&" else "?") +:+ kv)
  = query_params url ++ [kv].
Proof.
  intros Hkv. unfold query_params.
  destruct (after_first "?" url) as [rest|] eqn:Hafter.
  - assert (Hq : has_char "?" url = true).
    { destruct (has_char "?" url) eqn:Hq; [done|].
      apply after_first_None in Hq. congruence. }
    rewrite Hq, (after_first_app_Some _ _ _ _ Hafter).
    change ("&" +:+ kv) with (String "&" kv).
    by rewrite split_app_sep, (split_no_char _ kv).
  - apply after_first_None in Hafter as Hq. rewrite Hq.
    change ("?" +:+ kv) with (String "?" kv).
    by rewrite after_first_app, split_no_char.
Qed.

(** X1. [insertURLParameter(key, value)] hands one url to [pushState],
    and [location.href] becomes what the browser makes of it.  When the
    old url has at most one ["?"], the query of the url handed over is
    the parameters the old one had, without those for [key], followed by
    [key=value]. *)
Theorem insertURLParameter_query_params
    (serialise : string → string) (key value : string) (w : Window) :
  single_query (href w) →
  has_char "&" key = false → has_char "&" value = false →
  ∃ newurl,
    insertURLParameter serialise key value w
    = {| href := serialise newurl; pushed := pushed w ++ [newurl] |} ∧
    query_params newurl
    = others key (query_params (href w)) ++ [param key value].
Proof.
  intros Hsingle Hkey Hvalue. exists (inserted_url key value (href w)).
  split; [apply insertURLParameter_pushState|].
  unfold inserted_url. cbv zeta. rewrite query_params_appended.
  - by rewrite (preserves_others_single _ _ Hsingle).
  - unfold param. by rewrite !has_char_app, Hkey, Hvalue.
Qed.

Lemma insertURLParameter_query_params_witness :
  ∃ newurl,
    insertURLParameter kept "date" "2024-05-02"
      {| href := "http://nvr/events?date=2024-05-01&tab=timeline"; pushed := [] |}
    = {| href := kept newurl; pushed := [] ++ [newurl] |} ∧
    query_params newurl
    = others "date" ["date=2024-05-01"; "tab=timeline"] ++ [param "date" "2024-05-02"].
Proof.
  apply (insertURLParameter_query_params kept "date" "2024-05-02"
    {| href := "http://nvr/events?date=2024-05-01&tab=timeline"; pushed := [] |});
    reflexivity.
Defined.

Lemma has_char_true_after (url : string) :
  has_char "?" url = true ↔ is_Some (after_first "?" url).
Proof.
  destruct (has_char "?" url) eqn:Hq.
  - destruct (after_first "?" url) eqn:Ha; [by split; eauto|].
    apply after_first_None in Ha. congruence.
  - apply after_first_None in Hq as ->. split; [done | by intros [? ?]].
Qed.

(** Removing a parameter keeps a url with at most one ["?"] such a url. *)
Lemma single_query_removeURLParameter url parameter :
  single_query url → single_query (removeURLParameter url parameter).
Proof.
  intros Hsingle. unfold single_query in Hsingle.
  destruct (after_first "?" url) as [rest|] eqn:Hafter.
  - rewrite (removeURLParameter_one_query _ _ _ Hafter Hsingle).
    destruct (truthy rest); [|by unfold single_query; rewrite Hafter].
    destruct (others parameter (split "&" rest)) as [|p ps] eqn:Ho.
    + unfold single_query.
      by rewrite (proj2 (after_first_None _ _) (before_first_no_char _ _)).
    + destruct (rebuilt_url (before_first "?" url) rest parameter)
        as (Ha & _ & Hq & _); [apply before_first_no_char | done | by rewrite Ho |].
      rewrite Ho in Ha, Hq. unfold single_query. by rewrite Ha.
  - apply after_first_None in Hafter as Hq.
    rewrite removeURLParameter_no_query by done.
    unfold single_query. by rewrite Hafter.
Qed.

(** Removing [key] from a url to which [key=value] was just appended
    gives back the url, when it had no parameter for [key]. *)
Lemma removeURLParameter_appended url key value :
  single_query url → removeURLParameter url key = url →
  has_char "?" (param key value) = false →
  has_char "&" (param key value) = false →
  removeURLParameter
    (url +:+ (if has_char "?" url then "&" else "?") +:+ param key value) key
  = url.
Proof.
  intros Hsingle Hfixed Hq Hamp. unfold single_query in Hsingle.
  destruct (after_first "?" url) as [rest|] eqn:Hafter.
  - rewrite (proj2 (has_char_true_after url)) by (rewrite Hafter; eauto).
    change ("&" +:+ param key value) with (String "&" (param key value)).
    rewrite (removeURLParameter_one_query _ _ (rest +:+ String "&" (param key value)));
      [|by apply after_first_app_Some | by rewrite has_char_app, Hsingle; simpl; rewrite Hq].
    rewrite truthy_app_cons, (before_first_app_Some _ _ _ _ Hafter).
    rewrite split_app_sep, (split_no_char _ (param key value)) by done.
    rewrite others_app, others_param, app_nil_r.
    rewrite (removeURLParameter_one_query _ _ _ Hafter Hsingle) in Hfixed.
    destruct rest as [|a rest]; [|exact Hfixed].
    simpl split. rewrite others_empty_piece. simpl join.
    by rewrite (before_after _ _ _ Hafter) at 2.
  - apply after_first_None in Hafter as Hno. rewrite Hno.
    change ("?" +:+ param key value) with (String "?" (param key value)).
    rewrite (removeURLParameter_one_query _ _ (param key value));
      [|by apply after_first_app | done].
    rewrite param_truthy, split_no_char, others_param by done.
    by apply before_first_app.
Qed.

(** X2. The last write wins.  Let the old url have at most one ["?"] and
    let the browser keep the url of the first insertion as it is.  Then
    inserting [key] a second time hands to [pushState] the very url that
    the second insertion alone would have handed over: the first value
    leaves no trace in it. *)
Theorem insertURLParameter_twice
    (serialise : string → string) (key value1 value2 : string) (w : Window) :
  single_query (href w) →
  has_char "?" key = false → has_char "&" key = false →
  has_char "?" value1 = false → has_char "&" value1 = false →
  serialise (inserted_url key value1 (href w)) = inserted_url key value1 (href w) →
  pushed (insertURLParameter serialise key value2
            (insertURLParameter serialise key value1 w))
  = pushed w ++ [inserted_url key value1 (href w);
                 inserted_url key value2 (href w)] ∧
  href (insertURLParameter serialise key value2
          (insertURLParameter serialise key value1 w))
  = href (insertURLParameter serialise key value2 w).
Proof.
  intros Hsingle Hkq Hka Hvq Hva Hkept.
  rewrite !insertURLParameter_pushState. unfold pushState; cbn [href pushed].
  rewrite Hkept.
  assert (Hsame : inserted_url key value2 (inserted_url key value1 (href w))
                  = inserted_url key value2 (href w)).
  { unfold inserted_url at 1 3. cbv zeta.
    unfold inserted_url. cbv zeta.
    rewrite removeURLParameter_appended; [done | | | |].
    - by apply single_query_removeURLParameter.
    - apply removeURLParameter_idempotent.
    - unfold param. by rewrite !has_char_app, Hkq, Hvq.
    - unfold param. by rewrite !has_char_app, Hka, Hva. }
  rewrite Hsame. split; [|done]. by rewrite <- app_assoc.
Qed.

Lemma insertURLParameter_twice_witness :
  pushed (insertURLParameter kept "date" "2024-05-03"
            (insertURLParameter kept "date" "2024-05-02"
               {| href := "http://nvr/events?tab=timeline"; pushed := [] |}))
  = ["http://nvr/events?tab=timeline&date=2024-05-02";
     "http://nvr/events?tab=timeline&date=2024-05-03"].
Proof.
  rewrite (proj1 (insertURLParameter_twice kept "date" "2024-05-02" "2024-05-03"
             {| href := "http://nvr/events?tab=timeline"; pushed := [] |}
             eq_refl eq_refl eq_refl eq_refl eq_refl eq_refl)).
  reflexivity.
Defined.

(** X3. Removing a parameter that a url with at most one ["?"] does not
    have gives back the url, character for character. *)
Theorem removeURLParameter_absent (url parameter : string) :
  single_query url →
  Forall (λ p, names parameter p = false) (query_params url) →
  removeURLParameter url parameter = url.
Proof.
  intros Hsingle Hnone. unfold single_query in Hsingle. unfold query_params in Hnone.
  destruct (after_first "?" url) as [rest|] eqn:Hafter.
  - rewrite (removeURLParameter_one_query _ _ _ Hafter Hsingle).
    destruct (truthy rest); [|done].
    rewrite others_id by done.
    destruct (split "&" rest) as [|p ps] eqn:Hs; [by apply split_nonempty in Hs|].
    rewrite <- Hs, join_split. symmetry. by apply before_after.
  - apply removeURLParameter_no_query. by apply after_first_None.
Qed.

Lemma removeURLParameter_absent_witness :
  removeURLParameter "/events?tab=timeline&date=2024-05-01" "camera"
  = "/events?tab=timeline&date=2024-05-01".
Proof.
  apply removeURLParameter_absent; [reflexivity|].
  repeat constructor.
Defined.

End NavigationFacts.

(** ** lib/helpers: the video element, objects *)

Module VideoElementFacts.
Import JS JSFacts Helpers Video.

(** X4. [getVideoElement] shows the placeholder exactly when there is no
    recording.  With a recording the player has one source: the
    recording's [hls_url], followed by ["?token="] and the auth header
    only when auth is enabled and the header is not empty.  With auth
    disabled no token is appended, whatever [getAuthHeader] holds. *)
Theorem getVideoElement_source
    (getAuthHeader : option string) (camera : Camera)
    (recording : Recording) (authEnabled : bool) :
  getVideoElement getAuthHeader camera None authEnabled
  = VideoPlayerPlaceholder (mainstream_width camera) (mainstream_height camera) ∧
  ∃ options,
    getVideoElement getAuthHeader camera (Some recording) authEnabled
    = VideoPlayer options ∧
    sources options
    = [ {| src := if authEnabled && truthy_opt getAuthHeader
                  then hls_url recording +:+ "?token=" +:+ default "" getAuthHeader
                  else hls_url recording;
           type := "application/x-mpegURL" |} ].
Proof.
  split; [reflexivity|]. eexists. split; [reflexivity|].
  cbn [sources getRecordingVideoJSOptions]. do 2 f_equal.
  destruct authEnabled; simpl andb; cbv iota.
  - destruct getAuthHeader as [[|a h]|]; simpl; by rewrite ?append_nil_r.
  - simpl. by rewrite append_nil_r.
Qed.

End VideoElementFacts.

Module ObjectsFacts.
Import JS Objects.

Section Facts.
Context {Num V : Type}.
Implicit Types obj : Value Num V.


End Facts.


End ObjectsFacts.

(** ** lib/helpers: time *)

Module TimeFacts.
Import Time.
Local Open Scope Z_scope.

(** X6. Seconds to date and back: a whole-second timestamp that a [Date]
    can hold comes back unchanged from
    [dateToTimestamp(timestampToDate(timestamp))]. *)
Theorem dateToTimestamp_timestampToDate (timestamp : Z) :
  Z.abs (timestamp * 1000) ≤ max_time →
  dateToTimestamp (timestampToDate timestamp) = Some timestamp.
Proof.
  intros Hrange. unfold timestampToDate, new_Date.
  rewrite decide_True by done. cbn. f_equal. by apply Z.div_mul.
Qed.

Lemma dateToTimestamp_timestampToDate_witness :
  dateToTimestamp (timestampToDate 1714600000) = Some 1714600000.
Proof.
  apply dateToTimestamp_timestampToDate. unfold max_time. lia.
Defined.

(** X7. Date to seconds and back: for every valid date the timestamp
    exists, and [timestampToDate] of it is again a valid date, at a whole
    second, not later than the date and less than a second before it.
    The invalid date has no timestamp. *)
Theorem timestampToDate_dateToTimestamp (ms : Z) :
  new_Date ms = Some ms →
  ∃ timestamp ms',
    dateToTimestamp (new_Date ms) = Some timestamp ∧
    timestampToDate timestamp = Some ms' ∧
    ms' = timestamp * 1000 ∧
    ms' ≤ ms < ms' + 1000.
Proof.
  intros Hvalid. rewrite Hvalid. unfold new_Date in Hvalid.
  destruct (decide (Z.abs ms ≤ max_time)) as [Hrange|]; [|done].
  exists (ms `div` 1000), (ms `div` 1000 * 1000).
  pose proof (Z.div_mod ms 1000 ltac:(done)) as Hdiv.
  pose proof (Z.mod_pos_bound ms 1000 ltac:(done)) as Hmod.
  split; [done|]. split; [|split; [done | lia]].
  unfold timestampToDate, new_Date. rewrite decide_True; [done|].
  unfold max_time in *. lia.
Qed.

Lemma timestampToDate_dateToTimestamp_witness :
  ∃ timestamp ms',
    dateToTimestamp (new_Date 1714600000999) = Some timestamp ∧
    timestampToDate timestamp = Some ms' ∧
    ms' = timestamp * 1000 ∧
    ms' ≤ 1714600000999 < ms' + 1000.
Proof. apply timestampToDate_dateToTimestamp. reflexivity. Defined.

(** Before the epoch the timestamp is rounded down as well, and a time
    value out of range is the invalid date. *)
Lemma dateToTimestamp_examples :
  dateToTimestamp (new_Date (-1)) = Some (-1) ∧
  dateToTimestamp (new_Date (max_time + 1)) = None.
Proof. split; reflexivity. Qed.

Lemma spaced_snoc (gap : Z) (times : list Z) (t1 t2 : Z) :
  spaced gap times → last times = Some t1 → gap ≤ t2 - t1 →
  spaced gap (times ++ [t2]).
Proof.
  induction times as [|a [|b times] IH]; [done| |].
  - intros _ [= ->] Hgap. simpl. done.
  - intros [Hab Hrest] Hlast Hgap. split; [done|]. by apply IH.
Qed.

Lemma throttled_inv (timeFrame now : Z) (t : Throttle) :
  throttle_inv timeFrame t → throttle_inv timeFrame (throttled timeFrame now t).
Proof.
  intros [Hspaced Hlast]. unfold throttled.
  destruct (decide (timeFrame ≤ now - lastTime t)) as [Hgap|]; [|done].
  split; cbn [ran lastTime].
  - destruct Hlast as [-> | Hlast]; [done | by eapply spaced_snoc].
  - right. by rewrite last_snoc.
Qed.

Lemma throttled_calls_inv (timeFrame : Z) (clock : list Z) (t : Throttle) :
  throttle_inv timeFrame t → throttle_inv timeFrame (throttled_calls timeFrame clock t).
Proof.
  revert t. induction clock as [|now clock IH]; intros t Ht; [done|].
  apply IH. by apply throttled_inv.
Qed.

Lemma throttled_calls_sublist (timeFrame : Z) (clock : list Z) (t : Throttle) :
  ∃ runs, ran (throttled_calls timeFrame clock t) = ran t ++ runs ∧
          runs `sublist_of` clock.
Proof.
  revert t. induction clock as [|now clock IH]; intros t.
  - exists []. by rewrite app_nil_r.
  - destruct (IH (throttled timeFrame now t)) as (runs & Hran & Hsub).
    change (throttled_calls timeFrame (now :: clock) t)
      with (throttled_calls timeFrame clock (throttled timeFrame now t)).
    rewrite Hran. unfold throttled.
    destruct (decide (timeFrame ≤ now - lastTime t)); cbn [ran].
    + exists (now :: runs). rewrite <- app_assoc. split; [done|].
      by apply sublist_skip.
    + exists runs. split; [done|]. by apply sublist_cons.
Qed.

(** X8. Whatever the clock reads at the calls of a throttled function,
    the readings at which [func] has run are some of them, in order, and
    two runs in a row are at least [timeFrame] apart. *)
Theorem throttle_spacing (timeFrame : Z) (clock : list Z) :
  spaced timeFrame (ran (throttled_calls timeFrame clock throttle)) ∧
  ran (throttled_calls timeFrame clock throttle) `sublist_of` clock.
Proof.
  split.
  - apply throttled_calls_inv. split; [done | by left].
  - destruct (throttled_calls_sublist timeFrame clock throttle) as (runs & -> & Hsub).
    done.
Qed.

Lemma throttle_spacing_example :
  ran (throttled_calls 1000 [5000; 5400; 6000; 6100] throttle) = [5000; 6000].
Proof. reflexivity. Qed.

End TimeFacts.

(** ** lib/helpers: title case *)

Module TextFacts.
Import JS JSFacts Text.

Lemma toLowerCase_char_idemp (c : ascii) :
  toLowerCase_char (toLowerCase_char c) = toLowerCase_char c.
Proof. destruct c as [[] [] [] [] [] [] [] []]; reflexivity. Qed.

Lemma toUpperCase_char_idemp (c : ascii) :
  toUpperCase_char (toUpperCase_char c) = toUpperCase_char c.
Proof. destruct c as [[] [] [] [] [] [] [] []]; reflexivity. Qed.

Lemma toUpperCase_char_not_lower (c : ascii) :
  is_lower (toUpperCase_char c) = false.
Proof. destruct c as [[] [] [] [] [] [] [] []]; reflexivity. Qed.

Lemma toLowerCase_char_not_upper (c : ascii) :
  is_upper (toLowerCase_char c) = false.
Proof. destruct c as [[] [] [] [] [] [] [] []]; reflexivity. Qed.

Lemma toUpperCase_char_ascii (c : ascii) :
  Nat.ltb (nat_of_ascii c) 128 = true →
  Nat.ltb (nat_of_ascii (toUpperCase_char c)) 128 = true.
Proof. destruct c as [[] [] [] [] [] [] [] []]; intros H; try reflexivity; exact H. Qed.

Lemma toLowerCase_char_ascii (c : ascii) :
  Nat.ltb (nat_of_ascii c) 128 = true →
  Nat.ltb (nat_of_ascii (toLowerCase_char c)) 128 = true.
Proof. destruct c as [[] [] [] [] [] [] [] []]; intros H; try reflexivity; exact H. Qed.

Lemma toLowerCase_idemp (s : string) : toLowerCase (toLowerCase s) = toLowerCase s.
Proof.
  induction s as [|c s IH]; [done|]. simpl.
  by rewrite toLowerCase_char_idemp, IH.
Qed.

Lemma toLowerCase_none_upper (s : string) : none_of is_upper (toLowerCase s) = true.
Proof.
  induction s as [|c s IH]; [done|]. simpl.
  by rewrite toLowerCase_char_not_upper, IH.
Qed.

Lemma toLowerCase_length (s : string) :
  String.length (toLowerCase s) = String.length s.
Proof. induction s as [|c s IH]; [done|]. simpl. by rewrite IH. Qed.

Lemma toLowerCase_ascii (s : string) :
  is_ascii s = true → is_ascii (toLowerCase s) = true.
Proof.
  induction s as [|c s IH]; [done|]. simpl.
  intros [Hc Hs]%andb_true_iff.
  by rewrite toLowerCase_char_ascii, IH.
Qed.

Lemma toTitleCase_cons (c : ascii) (s : string) :
  toTitleCase (String c s) = String (toUpperCase_char c) (toLowerCase s).
Proof. reflexivity. Qed.

(** X9. On text in the ASCII range, [toTitleCase] keeps the length, leaves
    no lower-case letter in front and no upper-case letter after it,
    stays in the ASCII range, and changes nothing when applied a second
    time; the empty string stays empty. *)
Theorem toTitleCase_shape (str : string) :
  is_ascii str = true →
  String.length (toTitleCase str) = String.length str ∧
  none_of is_lower (charAt0 (toTitleCase str)) = true ∧
  none_of is_upper (slice1 (toTitleCase str)) = true ∧
  is_ascii (toTitleCase str) = true ∧
  toTitleCase (toTitleCase str) = toTitleCase str ∧
  (str = "" → toTitleCase str = "").
Proof.
  intros Hascii. destruct str as [|c s]; [done|].
  rewrite !toTitleCase_cons. simpl in Hascii.
  apply andb_true_iff in Hascii as [Hc Hs].
  cbn [String.length charAt0 slice1 none_of is_ascii].
  rewrite toLowerCase_length, toUpperCase_char_not_lower, toLowerCase_none_upper.
  rewrite toUpperCase_char_ascii, toLowerCase_ascii by done.
  rewrite toUpperCase_char_idemp, toLowerCase_idemp.
  done.
Qed.

Lemma toTitleCase_shape_witness :
  toTitleCase "oBJECT_detector" = "Object_detector" ∧
  toTitleCase (toTitleCase "oBJECT_detector") = toTitleCase "oBJECT_detector".
Proof.
  split; [reflexivity|].
  apply (toTitleCase_shape "oBJECT_detector"). reflexivity.
Defined.

End TextFacts.

(** ** The colour mode across reloads *)

Module ColorModePersistence.
Import ColorMode.

(** X10. A toggled mode is kept: when the page is loaded again with the
    [localStorage] that the toggle left, the mode is the toggled one
    whatever the OS prefers; and in the running page a change of the OS
    preference after a toggle changes neither the mode nor the storage. *)
Theorem toggleColorMode_persists (prefers_dark : bool) (st : State) :
  mode (chosenModeEffect prefers_dark (initial (localStorage (toggleColorMode st))))
  = mode (toggleColorMode st) ∧
  chosenModeEffect prefers_dark (toggleColorMode st) = toggleColorMode st.
Proof.
  unfold chosenModeEffect, toggleColorMode, initial; cbn [mode localStorage].
  rewrite !lookup_insert_eq.
  destruct (mode st); cbn [mode_text].
  - by rewrite !decide_True.
  - rewrite !decide_False by discriminate. by rewrite !decide_True.
Qed.

(** X11. The effect never writes to [localStorage]; so as long as no
    ["dark"] or ["light"] is stored, the mode follows every change of the
    OS preference, and in any case running the effect again for a new
    preference gives what running it once for that preference gives. *)
Theorem chosenModeEffect_follows (p1 p2 : bool) (st : State) :
  localStorage (chosenModeEffect p1 st) = localStorage st ∧
  chosenModeEffect p2 (chosenModeEffect p1 st) = chosenModeEffect p2 st ∧
  (localStorage st !! "chosenMode" ≠ Some "dark" →
   localStorage st !! "chosenMode" ≠ Some "light" →
   mode (chosenModeEffect p2 (chosenModeEffect p1 st)) = preferredMode p2).
Proof.
  assert (Hstore : ∀ p, localStorage (chosenModeEffect p st) = localStorage st).
  { intros p. unfold chosenModeEffect. by repeat case_decide. }
  assert (Hagain : chosenModeEffect p2 (chosenModeEffect p1 st) = chosenModeEffect p2 st).
  { unfold chosenModeEffect at 1 3. by rewrite !Hstore. }
  split; [apply Hstore|]. split; [exact Hagain|].
  intros Hd Hl. rewrite Hagain. unfold chosenModeEffect.
  by rewrite !decide_False.
Qed.

Lemma chosenModeEffect_follows_witness :
  mode (chosenModeEffect true (chosenModeEffect false (initial ∅))) = dark.
Proof.
  apply (chosenModeEffect_follows false true (initial ∅)); vm_compute; discriminate.
Defined.

End ColorModePersistence.

(** ** The request interceptor: what it leaves alone *)

Module InterceptorFrame.
Import JS JSFacts Eff AuthContext.

Section Facts.

Context {Other TokenStore : Type}.
Variable getToken : Config Other → TokenStore → option string * TokenStore.
Variable auth : option AuthEnabledResponse.
Variable cookies : gmap string string.
Variable config : Config Other.
Variable w : World TokenStore.

(** Unfold the interceptor along each of its branches. *)
Ltac branches :=
  unfold interceptor, request_interceptor, resolves;
  destruct auth as [?a|];
  repeat match goal with
    | |- context [includes_opt ?u ?p] => destruct (includes_opt u p)
    | |- context [truthy_opt ?c] => destruct (truthy_opt c)
    | |- context [enabled ?a] => destruct (enabled a)
    end;
  cbn [negb orb andb];
  unfold mbind, M_bind, mret, M_ret, throw, toast_error, await_getToken;
  try destruct (getToken config (tokens w)) as [[?|] ?];
  try match goal with |- context [truthy ?t] => destruct (truthy t) end.

(** X12. A request that the interceptor lets through is the request it
    was given, but for the ["Authorization"] header: the url, the other
    fields and every other header are the same, and no toast is shown. *)
Theorem interceptor_returned_frame (config' : Config Other) (w' : World TokenStore) :
  interceptor getToken auth cookies config w = (Returned config', w') →
  url config' = url config ∧
  other config' = other config ∧
  (∀ name, name ≠ "Authorization" →
     headers config' !! name = headers config !! name) ∧
  toasts w' = toasts w.
Proof.
  branches; intros [= <- <-]; cbn; repeat split; try done.
  all: intros name Hname; by rewrite lookup_insert_ne.
Qed.

(** X14. With auth loaded, a request whose url has ["/auth/enabled"],
    ["/auth/login"] or ["/onboarding"] anywhere in it, be it in the query,
    comes back unchanged with nothing else done: no cookie is needed and
    [getToken] is not asked. *)
Theorem interceptor_session_free (a : AuthEnabledResponse) (before path after : string) :
  auth = Some a →
  path = "/auth/enabled" ∨ path = "/auth/login" ∨ path = "/onboarding" →
  url config = Some (before +:+ path +:+ after) →
  interceptor getToken auth cookies config w = (Returned config, w).
Proof.
  intros -> Hpath Hurl.
  assert (Hin : includes_opt (url config) path = true).
  { rewrite Hurl. apply includes_spec. eauto. }
  unfold interceptor, request_interceptor. destruct (negb (enabled a)); [done|].
  destruct Hpath as [-> | [-> | ->]]; rewrite Hin; by rewrite ?orb_true_r.
Qed.

End Facts.

Section Rejections.

Context {Other TokenStore : Type}.
Variable normalizeValue : string → string.
Variable getToken :
  Config Other → TokenStore → Outcome (option string) * TokenStore.
Variable auth : option AuthEnabledResponse.
Variable cookies : gmap string string.
Variable config : Config Other.
Variable w : World TokenStore.

(** X13. When the interceptor rejects a request, either [getToken] was
    asked and rejected, and its error is passed on with no toast, or
    [getToken] was not asked: the token store is untouched, and the
    rejection is the one for auth not loaded, with nothing else done, or
    the one for an invalid session, with the session-expired toast as the
    only effect. *)
Theorem interceptor_thrown_frame (e : Error) (w' : World TokenStore) :
  request_interceptor normalizeValue getToken auth cookies config w
  = (Thrown e, w') →
  (getToken config (tokens w) = (Thrown e, tokens w') ∧ toasts w' = toasts w) ∨
  (tokens w' = tokens w ∧
   ((e = mkError "Request blocked, auth not loaded yet." ∧ w' = w ∧ auth = None) ∨
    (e = mkError "Invalid session." ∧
     toasts w' = toasts w ++ ["Session expired, please log in again"]))).
Proof.
  unfold request_interceptor.
  destruct auth as [a|];
  repeat match goal with
    | |- context [includes_opt ?u ?p] => destruct (includes_opt u p)
    | |- context [truthy_opt ?c] => destruct (truthy_opt c)
    | |- context [enabled ?a] => destruct (enabled a)
    end;
  cbn [negb orb andb];
  unfold mbind, M_bind, mret, M_ret, throw, toast_error, await_getToken;
  try (destruct (getToken config (tokens w)) as [[[t|]|e'] store];
       try destruct (truthy t));
  intros [= <- <-]; cbn.
  all: first [ by left | right; split; [done|]; first [by left | by right] ].
Qed.

End Rejections.

Lemma interceptor_returned_frame_witness :
  let request := {| url := Some "/api/v1/cameras";
                    headers := {["Accept" := "application/json"]};
                    other := () |} in
  let sent := set_header "Authorization" "Bearer abc" request in
  url sent = url request ∧
  other sent = other request ∧
  (∀ name, name ≠ "Authorization" →
     headers sent !! name = headers request !! name) ∧
  toasts fresh_world = toasts fresh_world.
Proof.
  intros request sent.
  apply (interceptor_returned_frame (token_is (Some "abc")) (Some enabled_auth)
           {["user" := "admin"]} request fresh_world sent fresh_world).
  reflexivity.
Defined.

(** A request without a session, and one for which [getToken] fails. *)
Lemma interceptor_thrown_frame_witness :
  let w' := {| toasts := ["Session expired, please log in again"]; tokens := () |} in
  ((token_fails (mkError "Network Error") cameras_request (tokens fresh_world)
    = (Thrown (mkError "Invalid session."), tokens w') ∧
    toasts w' = toasts fresh_world) ∨
   (tokens w' = tokens fresh_world ∧
    ((mkError "Invalid session." = mkError "Request blocked, auth not loaded yet." ∧
      w' = fresh_world ∧ Some enabled_auth = None) ∨
     (mkError "Invalid session." = mkError "Invalid session." ∧
      toasts w' = toasts fresh_world ++ ["Session expired, please log in again"])))) ∧
  request_interceptor (λ value, value) (token_fails (mkError "Network Error"))
    (Some enabled_auth) {["user" := "admin"]} cameras_request fresh_world
  = (Thrown (mkError "Network Error"), fresh_world).
Proof.
  intros w'. split; [|reflexivity].
  apply (interceptor_thrown_frame (λ value, value)
           (token_fails (mkError "Network Error")) (Some enabled_auth) ∅
           cameras_request fresh_world (mkError "Invalid session.") w').
  reflexivity.
Defined.

Lemma interceptor_session_free_witness :
  interceptor (token_is None) (Some enabled_auth) ∅
    {| url := Some "/api/v1/cameras?next=/auth/login"; headers := ∅; other := () |}
    fresh_world
  = (Returned {| url := Some "/api/v1/cameras?next=/auth/login";
                 headers := ∅; other := () |}, fresh_world).
Proof.
  apply (interceptor_session_free (token_is None) (Some enabled_auth) ∅ _ fresh_world
           enabled_auth "/api/v1/cameras?next=" "/auth/login" "");
    [reflexivity | by right; left | reflexivity].
Defined.

End InterceptorFrame.

(** ** The camera-selection store: more on its actions *)

Module CameraStoreLaws.
Import CameraStore CameraStoreFacts.

(** X15. Starting from the initial state, the store is consistent after
    every run of the two actions in which [selectSingleCamera] is only
    applied to cameras that are keys of the map by then, and
    [toggleCamera] never to a ["__proto__"] that is not a key:
    [selectedCameras] and [selectionOrder] list exactly the cameras that
    are [true], the latter each once. *)
Theorem store_invariant (actions : list Action) :
  known_selects actions initial → consistent (run actions initial).
Proof. apply run_consistent, initial_consistent. Qed.

Lemma store_invariant_witness :
  consistent (run [ToggleCamera "cam1"; ToggleCamera "constructor";
                   SelectSingleCamera "constructor"; ToggleCamera "cam1"] initial).
Proof.
  apply store_invariant. repeat split; try (by left). exists false. reflexivity.
Defined.

Lemma enabled_keys_NoDup (cams : gmap string bool) : NoDup (enabled_keys cams).
Proof.
  unfold enabled_keys.
  apply (sublist_NoDup _ (map_to_list cams).*1); [apply NoDup_fst_map_to_list|].
  apply fmap_sublist, sublist_filter.
Qed.

(** X16. After a [toggleCamera(id)] in a consistent state, for an [id]
    other than a ["__proto__"] that is not a key, [selectedCameras] and
    [selectionOrder] hold the same cameras, each once: one is a
    reordering of the other. *)
Theorem toggleCamera_selected_order (id : string) (state : CameraState) :
  id ≠ "__proto__" ∨ is_Some (cameras state !! id) →
  consistent state →
  selectedCameras (toggleCamera id state) ≡ₚ selectionOrder (toggleCamera id state).
Proof.
  intros Hset Hc. apply (toggleCamera_consistent id _ Hset) in Hc as [Hsel [Hnodup Hord]].
  apply NoDup_Permutation; [apply enabled_keys_NoDup | done |].
  intros x. by rewrite (Hsel x), (Hord x).
Qed.

Lemma toggleCamera_selected_order_witness :
  selectedCameras (toggleCamera "cam1" (toggleCamera "cam2" initial))
  ≡ₚ selectionOrder (toggleCamera "cam1" (toggleCamera "cam2" initial)).
Proof.
  apply toggleCamera_selected_order; [by left|].
  apply toggleCamera_consistent; [by left | apply initial_consistent].
Defined.

Lemma enabled_keys_none (cams : gmap string bool) :
  (∀ k, cams !! k ≠ Some true) → enabled_keys cams = [].
Proof.
  intros Hnone. apply elem_of_nil_inv. intros x Hx%elem_of_enabled_keys.
  by apply (Hnone x).
Qed.

(** X17. Selecting a single camera that is a key of the map and then
    toggling it leaves nothing selected: no camera is on, and
    [selectedCameras] and [selectionOrder] are empty. *)
Theorem selectSingleCamera_then_toggle (id : string) (state : CameraState) :
  is_Some (cameras state !! id) →
  let state' := toggleCamera id (selectSingleCamera id state) in
  (∀ k, is_on (cameras state') k = false) ∧
  selectedCameras state' = [] ∧
  selectionOrder state' = [].
Proof.
  intros Hkey state'.
  assert (Hone : cameras (selectSingleCamera id state) !! id = Some true).
  { by apply selectSingleCamera_lookup. }
  assert (Hset : id ≠ "__proto__" ∨ is_Some (cameras (selectSingleCamera id state) !! id)).
  { right. rewrite Hone. eauto. }
  assert (Hon : reads_true (cameras (selectSingleCamera id state)) id = true).
  { unfold reads_true. by rewrite Hone. }
  assert (Hoff : ∀ k, is_on (cameras state') k = false).
  { intros k. unfold state'. rewrite (toggleCamera_cameras _ _ Hset), Hon.
    destruct (decide (id = k)) as [->|Hne]; [apply is_on_insert_eq|].
    rewrite is_on_insert_ne by done.
    destruct (is_on (cameras (selectSingleCamera id state)) k) eqn:Hk; [|done].
    apply is_on_true, selectSingleCamera_lookup in Hk as [_ ->]. done. }
  split; [exact Hoff|]. split.
  - apply enabled_keys_none. intros k Hk%is_on_true. by rewrite Hoff in Hk.
  - unfold state'. rewrite (toggleCamera_selectionOrder _ _ Hset), Hon.
    cbn [selectionOrder selectSingleCamera].
    by rewrite filter_cons_False, filter_nil by (intros H; by apply H).
Qed.

Lemma selectSingleCamera_then_toggle_witness :
  selectedCameras
    (toggleCamera "cam1"
       (selectSingleCamera "cam1"
          (run [ToggleCamera "cam1"; ToggleCamera "cam2"] initial))) = [].
Proof.
  apply (selectSingleCamera_then_toggle "cam1"
           (run [ToggleCamera "cam1"; ToggleCamera "cam2"] initial)).
  exists true. reflexivity.
Defined.

(** X18. The last [selectSingleCamera] wins: what was selected before
    leaves no trace in the state. *)
Theorem selectSingleCamera_last (id1 id2 : string) (state : CameraState) :
  selectSingleCamera id2 (selectSingleCamera id1 state)
  = selectSingleCamera id2 state.
Proof.
  unfold selectSingleCamera; cbn [cameras]. f_equal.
  apply map_eq. intros k. rewrite !map_lookup_imap.
  by destruct (cameras state !! k).
Qed.

(** What [cams[id]] reads after a toggle of [id] depends on the entry of
    [id] alone. *)
Lemma reads_true_ext (cams1 cams2 : gmap string bool) (id : string) :
  cams1 !! id = cams2 !! id → reads_true cams1 id = reads_true cams2 id.
Proof. unfold reads_true. by intros ->. Qed.

Lemma toggleCamera_lookup_eq_ext id state1 state2 :
  cameras state1 !! id = cameras state2 !! id →
  cameras (toggleCamera id state1) !! id = cameras (toggleCamera id state2) !! id.
Proof.
  intros Heq. rewrite !toggleCamera_assign, !assign_lookup_eq.
  by rewrite (reads_true_ext _ _ _ Heq), Heq.
Qed.

Lemma toggleCamera_commute_lookup id1 id2 state k :
  id1 ≠ id2 →
  cameras (toggleCamera id1 (toggleCamera id2 state)) !! k
  = cameras (toggleCamera id2 (toggleCamera id1 state)) !! k.
Proof.
  intros Hne. destruct (decide (k = id1)) as [->|Hk1].
  - rewrite (toggleCamera_lookup_ne id2 _ id1) by done.
    apply toggleCamera_lookup_eq_ext. by apply toggleCamera_lookup_ne.
  - rewrite (toggleCamera_lookup_ne id1 _ k) by done.
    destruct (decide (k = id2)) as [->|Hk2].
    + apply toggleCamera_lookup_eq_ext. symmetry. by apply toggleCamera_lookup_ne.
    + by rewrite !toggleCamera_lookup_ne.
Qed.

Lemma toggleCamera_reads_other id1 id2 state :
  id1 ≠ id2 →
  reads_true (cameras (toggleCamera id1 (toggleCamera id2 state))) id1
  = reads_true (cameras (toggleCamera id1 state)) id1.
Proof.
  intros Hne. apply reads_true_ext, toggleCamera_lookup_eq_ext.
  by apply toggleCamera_lookup_ne.
Qed.

(** X19. Toggling two different cameras in either order gives the same
    map, the same cameras in [selectedCameras] and the same cameras in
    [selectionOrder]: the two lists differ in order at most. *)
Theorem toggleCamera_commute (id1 id2 : string) (state : CameraState) :
  id1 ≠ id2 →
  cameras (toggleCamera id1 (toggleCamera id2 state))
  = cameras (toggleCamera id2 (toggleCamera id1 state)) ∧
  selectedCameras (toggleCamera id1 (toggleCamera id2 state))
  ≡ₚ selectedCameras (toggleCamera id2 (toggleCamera id1 state)) ∧
  selectionOrder (toggleCamera id1 (toggleCamera id2 state))
  ≡ₚ selectionOrder (toggleCamera id2 (toggleCamera id1 state)).
Proof.
  intros Hne.
  assert (Hcams : cameras (toggleCamera id1 (toggleCamera id2 state))
                  = cameras (toggleCamera id2 (toggleCamera id1 state))).
  { apply map_eq. intros k. by apply toggleCamera_commute_lookup. }
  split; [exact Hcams|]. split.
  - apply NoDup_Permutation; [apply enabled_keys_NoDup..|].
    intros x.
    rewrite (toggleCamera_selected_matches id1 (toggleCamera id2 state) x).
    rewrite (toggleCamera_selected_matches id2 (toggleCamera id1 state) x).
    by rewrite Hcams.
  - rewrite (toggleCamera_order id1 (toggleCamera id2 state)).
    rewrite (toggleCamera_order id2 (toggleCamera id1 state)).
    rewrite (toggleCamera_reads_other id1 id2), (toggleCamera_reads_other id2 id1)
      by done.
    rewrite (toggleCamera_order id1 state), (toggleCamera_order id2 state).
    destruct (reads_true (cameras (toggleCamera id1 state)) id1),
             (reads_true (cameras (toggleCamera id2 state)) id2).
    + rewrite <- !app_assoc. apply Permutation_app_head, Permutation_swap.
    + by rewrite filter_app, filter_cons_True, filter_nil by done.
    + by rewrite filter_app, filter_cons_True, filter_nil by done.
    + rewrite !list_filter_filter.
      erewrite list_filter_iff; [done|]. intros x. tauto.
Qed.

Lemma toggleCamera_commute_witness :
  selectionOrder (toggleCamera "cam1" (toggleCamera "cam2" initial))
  ≡ₚ selectionOrder (toggleCamera "cam2" (toggleCamera "cam1" initial)).
Proof.
  apply (toggleCamera_commute "cam1" "cam2" initial). discriminate.
Defined.

End CameraStoreLaws.

(** ** The cameras to show *)

Module FilteredCamerasFacts.
Import CameraStore CameraStoreFacts FilteredCameras.

Section Facts.
Context {V : Type}.
Implicit Types data cameras failed : gmap string V.

Lemma put_lookup key (camera : V) (obj : gmap string V) (k : string) :
  put key camera obj !! k
  = if decide (k = key ∧ key ≠ "__proto__") then Some camera else obj !! k.
Proof.
  unfold put. destruct (decide (key = "__proto__")) as [->|Hkey].
  - rewrite decide_False; [done | by intros [_ ?]].
  - destruct (decide (k = key)) as [->|Hne].
    + by rewrite decide_True, lookup_insert_eq.
    + rewrite decide_False by (by intros [? _]). by rewrite lookup_insert_ne.
Qed.

Lemma pick_fold data (keys : list string) (obj : gmap string V) (k : string) :
  foldl (λ obj key,
           match data !! key with
           | Some camera => put key camera obj
           | None => obj
           end) obj keys !! k
  = if decide (k ∈ keys ∧ k ≠ "__proto__") then
      match data !! k with Some camera => Some camera | None => obj !! k end
    else obj !! k.
Proof.
  revert obj. induction keys as [|key keys IH]; intros obj.
  { cbn. rewrite decide_False; [done|]. by intros [?%elem_of_nil _]. }
  cbn [foldl]. rewrite IH.
  destruct (decide (k ∈ keys ∧ k ≠ "__proto__")) as [[Hin Hk]|Hnin].
  - rewrite decide_True by (split; [by right | done]).
    destruct (data !! k) eqn:Hdk; [done|].
    destruct (data !! key) eqn:Hkey; [|done].
    rewrite put_lookup, decide_False; [done|]. intros [-> _]. congruence.
  - destruct (decide (k = key ∧ k ≠ "__proto__")) as [[-> Hk]|Hne].
    + rewrite decide_True by (split; [by left | done]).
      destruct (data !! key); [|done].
      rewrite put_lookup. by rewrite decide_True.
    + rewrite decide_False.
      * destruct (data !! key); [|done].
        rewrite put_lookup, decide_False; [done|].
        intros [-> ?]. by apply Hne.
      * intros [[->|Hin]%elem_of_cons Hk]; [by apply Hne | by apply Hnin].
Qed.

Lemma pick_lookup data (selectedCameras : list string) (k : string) :
  pick data selectedCameras !! k
  = if decide (k ∈ selectedCameras ∧ k ≠ "__proto__") then data !! k else None.
Proof.
  unfold pick. rewrite pick_fold, lookup_empty.
  destruct (decide (k ∈ selectedCameras ∧ k ≠ "__proto__")) as [[Hsel Hk]|Hsel].
  - destruct (data !! k) as [camera|] eqn:Hdk; [|by case_decide].
    rewrite decide_True; [done|]. split; [|done].
    apply list_elem_of_filter. split; [done|].
    apply list_elem_of_fmap. exists (k, camera). split; [done|].
    by apply elem_of_map_to_list.
  - rewrite decide_False; [done|].
    intros [[? _]%list_elem_of_filter ?]. by apply Hsel.
Qed.

Lemma cameraData_lookup (cameras failed : option (gmap string V)) (k : string) :
  cameraData cameras failed !! k
  = match failed ≫= (.!! k) with
    | Some camera => Some camera
    | None => cameras ≫= (.!! k)
    end.
Proof.
  unfold cameraData.
  destruct cameras as [cameras|], failed as [failed|]; cbn;
    rewrite ?lookup_union, ?lookup_empty; try done;
    repeat match goal with |- context [?m !! k] => destruct (m !! k) end;
    done.
Qed.

(** X20. The own keys of what [useFilteredCameras] returns: a selected
    key other than ["__proto__"] has the failed camera under that key if
    there is one and else the camera under it; a key that is not
    selected, or that neither query knows, or ["__proto__"], is no key of
    the result. *)
Theorem useFilteredCameras_lookup
    (cameras failed : option (gmap string V))
    (selectedCameras : list string) (k : string) :
  useFilteredCameras cameras failed selectedCameras !! k
  = if decide (k ∈ selectedCameras ∧ k ≠ "__proto__") then
      match failed ≫= (.!! k) with
      | Some camera => Some camera
      | None => cameras ≫= (.!! k)
      end
    else None.
Proof.
  unfold useFilteredCameras. by rewrite pick_lookup, cameraData_lookup.
Qed.

(** X21. One [toggleCamera(id)] in a store whose [selectedCameras] matches
    its map changes the cameras shown by [id] only.  After the toggle
    [id] is shown exactly if [cameras[id]] read as false before, a query
    knows [id], and [id] is not ["__proto__"]; every other camera is shown
    or hidden as before. *)
Theorem useFilteredCameras_toggleCamera
    (cameras failed : option (gmap string V))
    (id : string) (state : CameraState) :
  selected_matches state →
  useFilteredCameras cameras failed (selectedCameras (toggleCamera id state)) !! id
  = (if reads_true (CameraStore.cameras state) id || bool_decide (id = "__proto__")
     then None
     else cameraData cameras failed !! id) ∧
  (∀ k, k ≠ id →
     useFilteredCameras cameras failed (selectedCameras (toggleCamera id state)) !! k
     = useFilteredCameras cameras failed (selectedCameras state) !! k).
Proof.
  intros Hm. unfold useFilteredCameras. split.
  - rewrite pick_lookup.
    rewrite (decide_ext _ (CameraStore.cameras (toggleCamera id state) !! id = Some true
                           ∧ id ≠ "__proto__"))
      by (by rewrite (toggleCamera_selected_matches id state id)).
    rewrite toggleCamera_assign, assign_lookup_eq.
    destruct (decide (id = "__proto__")) as [->|Hid].
    + rewrite orb_true_r, decide_False; [done | by intros [_ ?]].
    + rewrite bool_decide_eq_false_2, orb_false_r by done.
      rewrite (decide_False (P := id = "__proto__" ∧ _)) by (by intros [? _]).
      destruct (reads_true (CameraStore.cameras state) id).
      * rewrite decide_False; [done | by intros [? _]].
      * by rewrite decide_True.
  - intros k Hne. rewrite !pick_lookup.
    apply decide_ext.
    rewrite (toggleCamera_selected_matches id state k), (Hm k).
    by rewrite toggleCamera_lookup_ne.
Qed.

End Facts.

Lemma useFilteredCameras_toggleCamera_witness :
  useFilteredCameras (Some ({["cam1" := "Front door"; "cam2" := "Garage"]}
                            : gmap string string)) None
    (selectedCameras (toggleCamera "cam1" initial)) !! "cam1"
  = Some "Front door".
Proof.
  rewrite (proj1 (useFilteredCameras_toggleCamera
    (Some ({["cam1" := "Front door"; "cam2" := "Garage"]} : gmap string string))
    None "cam1" initial (proj1 initial_consistent))).
  reflexivity.
Defined.

End FilteredCamerasFacts.
